(** * McKean-Vlasov swarm simulation: a shallow embedding of [simulation.py]

    The script simulates [N] agents in the plane.  Every agent feels the
    gradient of a double-well potential, a class-dependent pairwise force
    averaged over the population, and Brownian noise; the positions are
    advanced by an Euler-Maruyama scheme and every step is recorded.

    Conventions of the embedding.
    - NumPy's [float64] arithmetic is idealised as exact arithmetic on the
      real numbers [R]; rounding and overflow are outside the model.  A
      position (an array of shape [(2,)]) is a pair of reals, a population
      (shape [(N, 2)]) a list of positions.
    - Where NumPy leaves the reals (a division by zero or the square root
      of a negative number give [inf] or [nan] and a warning) the script
      goes on, and so does the model: the outcome is marked [Nan].  It has
      the shape of the script's value (the same loops have run, the same
      draws were made), but where the script holds [inf] or [nan] its
      numbers are stand-ins without meaning.  An outcome [Ok] has real
      numbers only.
      Python exceptions are the outcomes [ValueError] and [IndexError].
    - The module-level generator [np.random] is a tape of draws together
      with a cursor counting the draws made so far; the cursor is threaded
      through the script by a state-and-error monad. *)

From Stdlib Require Import Reals Lra Lia ZArith.
From stdpp Require Import base list.

Open Scope R_scope.

(** ** Vectors of shape (2,) *)

Definition vec : Type := R * R.

Definition zeros : vec := (0, 0).
Definition vadd (u v : vec) : vec := (u.1 + v.1, u.2 + v.2).
Definition vsub (u v : vec) : vec := (u.1 - v.1, u.2 - v.2).
Definition vneg (u : vec) : vec := (- u.1, - u.2).
Definition vscale (k : R) (u : vec) : vec := (k * u.1, k * u.2).
Definition vmap (f : R -> R) (u : vec) : vec := (f u.1, f u.2).

(** [np.linalg.norm] on a vector: the Euclidean norm. *)
Definition norm (u : vec) : R := sqrt (u.1 * u.1 + u.2 * u.2).

(** ** Outcomes *)

Inductive failure : Type :=
| ValueError   (* NumPy refuses a negative dimension *)
| IndexError.  (* an index outside an array *)

Inductive result (A : Type) : Type :=
| Ok (a : A)          (* a value made of real numbers *)
| Nan (a : A)         (* a value of this shape, some inf or nan in it *)
| Fail (e : failure). (* an exception was raised *)
Arguments Ok {A} a.
Arguments Nan {A} a.
Arguments Fail {A} e.

(** What follows an [inf] or a [nan] is marked as well. *)
Definition taint {A} (r : result A) : result A :=
  match r with
  | Ok a => Nan a
  | Nan a => Nan a
  | Fail e => Fail e
  end.

(** The value a computation ends with, when no exception was raised. *)
Definition returned {A} (r : result A) : option A :=
  match r with
  | Ok a => Some a
  | Nan a => Some a
  | Fail _ => None
  end.

Definition rbind {A B} (m : result A) (k : A -> result B) : result B :=
  match m with
  | Ok a => k a
  | Nan a => taint (k a)
  | Fail e => Fail e
  end.

Declare Scope result_scope.
Delimit Scope result_scope with res.
Notation "x <-? m ;; k" := (rbind m (fun x => k))
  (at level 20, m at level 99, k at level 200, only parsing) : result_scope.

(** Division of a vector by a scalar; the quotient is a real vector only
    for a divisor other than zero (NumPy: [inf] or [nan], and a warning;
    the vector under [Nan] is a stand-in). *)
Definition vdiv (u : vec) (d : R) : result vec :=
  if Req_dec_T d 0 then Nan (u.1 / d, u.2 / d) else Ok (u.1 / d, u.2 / d).

(** [np.sqrt] on a scalar; of a negative number it is [nan], with a
    warning, and the number under [Nan] is a stand-in. *)
Definition np_sqrt (x : R) : result R :=
  if Rlt_dec x 0 then Nan (sqrt x) else Ok (sqrt x).

(** ** Agent classes (0: Guard, 1: Mage, 2: Ninja) *)

Definition Guard : Z := 0.
Definition Mage : Z := 1.
Definition Ninja : Z := 2.

(** ** The interaction kernel *)

Definition interaction_kernel (xi xj : vec) (c_type : Z) : result vec :=
  let r := vsub xi xj in
  let dist := norm r in
  if Rlt_dec dist 1e-3 then Ok zeros
  else if (c_type =? 0)%Z then
    (if Rlt_dec dist 2 then vdiv (vscale 2.0 r) (dist ^ 3) else Ok zeros)
  else if (c_type =? 1)%Z then
    vdiv (vscale (-0.5) r) dist
  else
    Ok zeros.

(** ** The potential *)

Definition potential_gradient (x : R) : R := 0.1 * (x ^ 3 - 9 * x).

(** [drift = -potential_gradient(X[i])]: the gradient is broadcast over the
    two coordinates of the position. *)
Definition drift (xi : vec) : vec := vneg (vmap potential_gradient xi).

(** ** The random generator and the monad of the script *)

(** The outcome of the [k]-th draw of the process-wide generator, read as a
    standard normal variate ([randn]) or as an integer of [randint(0, 3)].
    NumPy keeps the integers in [0, 3); nothing below depends on it, a code
    other than 0 and 1 takes the last branch of the kernel. *)
Record generator : Type := {
  normal : nat -> R;
  integer : nat -> Z
}.

(** A computation reads the tape and moves the cursor, or fails. *)
Definition M (A : Type) : Type := generator -> nat -> result (A * nat).

Definition ret {A} (a : A) : M A := fun _ c => Ok (a, c).

Definition bind {A B} (m : M A) (k : A -> M B) : M B :=
  fun g c =>
    match m g c with
    | Ok (a, c') => k a g c'
    | Nan (a, c') => taint (k a g c')
    | Fail e => Fail e
    end.

Definition lift {A} (r : result A) : M A :=
  fun _ c =>
    match r with
    | Ok a => Ok (a, c)
    | Nan a => Nan (a, c)
    | Fail e => Fail e
    end.

Definition raise {A} (e : failure) : M A := fun _ _ => Fail e.

Declare Scope sim_scope.
Delimit Scope sim_scope with sim.
Notation "x <- m ;; k" := (bind m (fun x => k))
  (at level 20, m at level 99, k at level 200, only parsing) : sim_scope.

Definition draw_normal : M R := fun g c => Ok (normal g c, S c).
Definition draw_integer : M Z := fun g c => Ok (integer g c, S c).

(** A [for] loop over a list of indices, with the loop-carried variables as
    accumulator: in the error monad and in the monad of the script. *)
Fixpoint rfor {A B} (l : list A) (b : B) (body : B -> A -> result B)
    : result B :=
  match l with
  | [] => Ok b
  | a :: l' => rbind (body b a) (fun b' => rfor l' b' body)
  end.

Fixpoint mfor {A B} (l : list A) (b : B) (body : B -> A -> M B) : M B :=
  match l with
  | [] => ret b
  | a :: l' => bind (body b a) (fun b' => mfor l' b' body)
  end.

(** [range(n)] for an integer [n]: empty when [n <= 0]. *)
Definition range (n : Z) : list nat := seq 0 (Z.to_nat n).

(** [np.random.randn(2)]. *)
Definition randn2 : M vec :=
  (a <- draw_normal ;; b <- draw_normal ;; ret (a, b))%sim.

(** An array of [n] rows filled by [n] successive calls of [m]; a negative
    dimension is refused. *)
Definition fill {A} (n : Z) (m : M A) : M (list A) :=
  if (n <? 0)%Z then raise ValueError
  else mfor (range n) [] (fun rows _ => (a <- m ;; ret (rows ++ [a]))%sim).

(** [np.random.randn(N, 2)] and [np.random.randint(0, 3, N)]. *)
Definition randn_rows (n : Z) : M (list vec) := fill n randn2.
Definition randint3 (n : Z) : M (list Z) := fill n draw_integer.

(** Indexing [a[i]] and the assignment [a[i] = v]. *)
Definition index {A} (a : list A) (i : nat) : result A :=
  match a !! i with
  | Some x => Ok x
  | None => Fail IndexError
  end.

Definition assign {A} (a : list A) (i : nat) (v : A) : result (list A) :=
  if decide (i < length a)%nat then Ok (<[i := v]> a) else Fail IndexError.

(** [array * scalar]. *)
Definition vtimes (u : vec) (k : R) : vec := (u.1 * k, u.2 * k).

(** ** Configuration *)

Record config : Type := {
  N : Z;       (* players *)
  T : Z;       (* time steps *)
  dt : R;
  sigma : R    (* noise level *)
}.

Definition default_config : config :=
  {| N := 50; T := 100; dt := 0.1; sigma := 0.5 |}.

(** ** The simulation loop *)

(** Lines 44-45: the body of the loop over [j], with [interaction] as the
    loop-carried variable. *)
Definition accumulate (classes : list Z) (X : list vec) (i : nat)
    (acc : vec) (j : nat) : result vec :=
  if Nat.eqb i j then Ok acc
  else
    (xi <-? index X i ;;
     xj <-? index X j ;;
     c <-? index classes i ;;
     f <-? interaction_kernel xi xj c ;;
     Ok (vadd acc f))%res.

(** Lines 42-46: the interaction of agent [i] with the population [X]. *)
Definition interaction (cfg : config) (classes : list Z) (X : list vec)
    (i : nat) : result vec :=
  (acc <-? rfor (range (N cfg)) zeros (accumulate classes X i) ;;
   vdiv acc (IZR (N cfg)))%res.

(** Lines 40-51: the new position of agent [i]. *)
Definition update (cfg : config) (classes : list Z) (X : list vec)
    (i : nat) : M vec :=
  (xi <- lift (index X i) ;;
   let drift := drift xi in
   inter <- lift (interaction cfg classes X i) ;;
   s <- randn2 ;;
   root <- lift (np_sqrt (dt cfg)) ;;
   let noise := vtimes (vtimes s root) (sigma cfg) in
   xi' <- lift (index X i) ;;
   ret (vadd (vadd xi' (vtimes (vadd drift inter) (dt cfg))) noise))%sim.

(** Lines 38-51: one time step; [X_new] starts as [np.zeros_like(X)] and is
    filled row by row while [X] is only read. *)
Definition step (cfg : config) (classes : list Z) (X : list vec)
    : M (list vec) :=
  mfor (range (N cfg)) (replicate (length X) zeros) (fun X_new i =>
    (v <- update cfg classes X i ;; lift (assign X_new i v))%sim).

(** Lines 36-54: the loop over the time steps, carrying [X] and [history]. *)
Definition simulate (cfg : config) (classes : list Z) (X : list vec)
    : M (list vec * list (list vec)) :=
  mfor (range (T cfg)) (X, []) (fun st _ =>
    (X_new <- step cfg classes st.1 ;;
     ret (X_new, st.2 ++ [X_new]))%sim).

(** The whole script: initial positions, classes, then the loop; the result
    is [history]. *)
Definition run (cfg : config) : M (list (list vec)) :=
  (X0 <- randn_rows (N cfg) ;;
   let X := map (fun x => vtimes x 5) X0 in
   classes <- randint3 (N cfg) ;;
   st <- simulate cfg classes X ;;
   ret st.2)%sim.


(** ** What the specification says, in its own words *)

(** Section 4.1: [gradient(x) = a (x^3 - 9 x)] with [a = 0.1]; the drift is
    the negative gradient, coordinate by coordinate. *)
Definition spec_gradient (x : R) : R := 1 / 10 * (x * x * x - 9 * x).
Definition spec_drift (p : vec) : vec :=
  (- spec_gradient p.1, - spec_gradient p.2).

(** The vector a kernel call returns. *)
Definition kernel_value (xi xj : vec) (c : Z) : vec :=
  match interaction_kernel xi xj c with
  | Ok f => f
  | Nan f => f
  | Fail _ => zeros
  end.

Definition vsum (l : list vec) : vec := foldr vadd zeros l.

(** Section 4.3: [(1/N) * sum over j <> i] of the kernel, the sum taken
    over the positions of the other agents. *)
Definition mean_field (n : Z) (xi : vec) (c : Z) (others : list vec) : vec :=
  vscale (1 / IZR n) (vsum (map (fun xj => kernel_value xi xj c) others)).

(** Section 4.4: the noise of agent [i] in a step that starts with the
    cursor at [c]. *)
Definition noise_of (cfg : config) (g : generator) (c i : nat) : vec :=
  vscale (sqrt (dt cfg) * sigma cfg)
    (normal g (c + 2 * i), normal g (c + 2 * i + 1)).

(** Section 4.5: the Euler-Maruyama update of one agent from the prior
    snapshot [X]. *)
Definition euler_maruyama (cfg : config) (g : generator) (c : nat)
    (X : list vec) (i : nat) (xi : vec) (ci : Z) : vec :=
  vadd (vadd xi
          (vscale (dt cfg)
             (vadd (spec_drift xi) (mean_field (N cfg) xi ci (delete i X)))))
       (noise_of cfg g c i).

(** The state of the loop over the agents after the rows below [k] have
    been written: they hold the update computed from [X], the other rows
    of [X_new] are untouched, and the cursor has moved by two draws a row. *)
Definition rows_written (cfg : config) (classes : list Z) (X : list vec)
    (g : generator) (c : nat) (k : nat) (X_new : list vec) (cur : nat)
    : Prop :=
  cur = (c + 2 * k)%nat /\
  length X_new = length X /\
  forall i xi ci, (i < k)%nat -> X !! i = Some xi -> classes !! i = Some ci ->
    X_new !! i = Some (euler_maruyama cfg g c X i xi ci).

(** Section 4.6: a history is chronological when each snapshot is the
    outcome of one step taken from the snapshot before it. *)
Inductive chronological (cfg : config) (classes : list Z) (g : generator)
    : list vec -> nat -> list (list vec) -> nat -> Prop :=
| chrono_done X c : chronological cfg classes g X c [] c
| chrono_step X c X' c' h c'' :
    step cfg classes X g c = Ok (X', c') ->
    chronological cfg classes g X' c' h c'' ->
    chronological cfg classes g X c (X' :: h) c''.


(** The state of the loop over the time steps after [k] steps taken from
    [X0] with the cursor at [c0]. *)
Definition steps_taken (cfg : config) (classes : list Z) (g : generator)
    (X0 : list vec) (c0 : nat) (k : nat)
    (st : list vec * list (list vec)) (cur : nat) : Prop :=
  length st.2 = k /\
  Forall (fun s => length s = length X0) st.2 /\
  chronological cfg classes g X0 c0 st.2 cur /\
  st.1 = default X0 (last st.2) /\
  length st.1 = length X0.





(** ** Concrete inputs *)

(** A tape that yields the same variate at every draw. *)
Definition constant_tape (x : R) : generator :=
  {| normal := fun _ => x; integer := fun _ => 2%Z |}.

(** One agent, one step of unit length, noise scale [s]. *)
Definition solo (s : R) : config :=
  {| N := 1; T := 1; dt := 1; sigma := s |}.

(** The coordinate of the only agent of [solo s] after its step on the
    tape [constant_tape x]. *)
Definition solo_coordinate (s x : R) : R :=
  x * 5 - 1 / 10 * (x * 5 * (x * 5) * (x * 5) - 9 * (x * 5)) + s * x.

(** Two Guards one unit apart, three steps without noise. *)
Definition duo : config := {| N := 2; T := 3; dt := 1 / 10; sigma := 0 |}.
Definition apart : list vec := [(1, 0); (0, 0)].
Definition guards : list Z := [Guard; Guard].



(** ** Further notions used to describe the script *)

(** The scalar product of two vectors. *)
Definition dot (u v : vec) : R := u.1 * v.1 + u.2 * v.2.

(** A coordinate at which the potential has no slope. *)
Definition at_rest (x : R) : Prop := x = -3 \/ x = 0 \/ x = 3.

(** A class code that takes the last branch of the kernel. *)
Definition inert (c : Z) : Prop := c <> 0%Z /\ c <> 1%Z.

(** The position reached from [xi] by the drift alone in a time [h]. *)
Definition drift_only (h : R) (xi : vec) : vec :=
  vadd xi (vscale h (spec_drift xi)).


(** Three inert agents, two of them at rest in the wells. *)
Definition ninjas : list Z := [Ninja; Ninja; Ninja].
Definition trio : config := {| N := 3; T := 4; dt := 1 / 10; sigma := 0 |}.
Definition resting : list vec := [(3, -3); (0, 3); (-3, 0)].

(** Two Mages and two Guards. *)
Definition mages : list Z := [Mage; Mage].

(** An empty population and a run without steps. *)
Definition nobody : config := {| N := 0; T := 2; dt := -1; sigma := 1 |}.
Definition no_steps : config := {| N := 2; T := 0; dt := -1; sigma := 1 |}.
(** * Properties *)

(** ** Vectors and the norm *)

Lemma norm_nonneg (u : vec) : 0 <= norm u.
Proof. apply sqrt_pos. Qed.

Lemma norm_sqr (u : vec) : norm u * norm u = u.1 * u.1 + u.2 * u.2.
Proof. unfold norm. apply sqrt_sqrt. nra. Qed.

Lemma norm_vsub_swap (u v : vec) : norm (vsub u v) = norm (vsub v u).
Proof. unfold norm, vsub. simpl. f_equal. ring. Qed.

Lemma vsub_swap (u v : vec) : vsub u v = vneg (vsub v u).
Proof. unfold vsub, vneg. simpl. f_equal; ring. Qed.

Lemma vneg_zeros : vneg zeros = zeros.
Proof. unfold vneg, zeros. simpl. f_equal; ring. Qed.

Lemma norm_zero_vsub (u : vec) : norm (vsub u u) = 0.
Proof.
  unfold norm, vsub. simpl.
  replace ((u.1 - u.1) * (u.1 - u.1) + (u.2 - u.2) * (u.2 - u.2)) with 0
    by ring.
  apply sqrt_0.
Qed.

(** A vector of squared length [s * s] has norm [s], for [s >= 0]. *)
Lemma norm_eq_of_sqr (u : vec) (s : R) :
  0 <= s -> u.1 * u.1 + u.2 * u.2 = s * s -> norm u = s.
Proof.
  intros Hs Hsq. unfold norm. rewrite Hsq. now apply sqrt_square.
Qed.

(** ** The kernel, branch by branch *)

Lemma vdiv_ok (u : vec) (d : R) :
  d <> 0 -> vdiv u d = Ok (u.1 / d, u.2 / d).
Proof. intros Hd. unfold vdiv. destruct (Req_dec_T d 0); [contradiction | reflexivity]. Qed.

Lemma kernel_floor (xi xj : vec) (c : Z) :
  norm (vsub xi xj) < 1e-3 -> interaction_kernel xi xj c = Ok zeros.
Proof.
  intros Hd. unfold interaction_kernel.
  destruct (Rlt_dec (norm (vsub xi xj)) 1e-3); [reflexivity | contradiction].
Qed.

Lemma kernel_guard_near (xi xj : vec) :
  1e-3 <= norm (vsub xi xj) < 2 ->
  interaction_kernel xi xj Guard =
    Ok (vscale (2.0 / norm (vsub xi xj) ^ 3) (vsub xi xj)).
Proof.
  intros [Hlo Hhi]. unfold interaction_kernel. simpl.
  destruct (Rlt_dec (norm (vsub xi xj)) 1e-3) as [Hlt | _]; [lra |].
  destruct (Rlt_dec (norm (vsub xi xj)) 2) as [_ | Hge]; [| lra].
  set (d := norm (vsub xi xj)) in *.
  assert (Hd : d ^ 3 <> 0) by (apply pow_nonzero; lra).
  rewrite vdiv_ok by assumption.
  unfold vscale. simpl. f_equal. f_equal; field; lra.
Qed.

Lemma kernel_guard_far (xi xj : vec) :
  2 <= norm (vsub xi xj) -> interaction_kernel xi xj Guard = Ok zeros.
Proof.
  intros Hge. unfold interaction_kernel. simpl.
  destruct (Rlt_dec (norm (vsub xi xj)) 1e-3) as [Hlt | _]; [lra |].
  destruct (Rlt_dec (norm (vsub xi xj)) 2) as [Hlt | _]; [lra | reflexivity].
Qed.

Lemma kernel_mage (xi xj : vec) :
  1e-3 <= norm (vsub xi xj) ->
  interaction_kernel xi xj Mage =
    Ok (vscale (-0.5 / norm (vsub xi xj)) (vsub xi xj)).
Proof.
  intros Hlo. unfold interaction_kernel. simpl.
  destruct (Rlt_dec (norm (vsub xi xj)) 1e-3) as [Hlt | _]; [lra |].
  set (d := norm (vsub xi xj)) in *.
  rewrite vdiv_ok by lra.
  unfold vscale. simpl. f_equal. f_equal; field; lra.
Qed.

Lemma kernel_other (xi xj : vec) (c : Z) :
  c <> 0%Z -> c <> 1%Z -> interaction_kernel xi xj c = Ok zeros.
Proof.
  intros H0 H1. unfold interaction_kernel.
  destruct (Rlt_dec _ _); [reflexivity |].
  destruct (Z.eqb_spec c 0%Z); [contradiction |].
  destruct (Z.eqb_spec c 1%Z); [contradiction | reflexivity].
Qed.

(** The kernel never leaves the reals: every division it evaluates has a
    divisor of at least [1e-9]. *)
Lemma kernel_total (xi xj : vec) (c : Z) :
  exists f, interaction_kernel xi xj c = Ok f.
Proof.
  destruct (Rlt_dec (norm (vsub xi xj)) 1e-3) as [Hlt | Hge].
  - exists zeros. now apply kernel_floor.
  - destruct (Z.eq_dec c 0%Z) as [-> | H0].
    + destruct (Rlt_dec (norm (vsub xi xj)) 2) as [Hlt | Hfar].
      * eexists. apply kernel_guard_near. lra.
      * exists zeros. apply kernel_guard_far. lra.
    + destruct (Z.eq_dec c 1%Z) as [-> | H1].
      * eexists. apply kernel_mage. lra.
      * exists zeros. now apply kernel_other.
Qed.

Lemma norm_apart : norm (vsub (1, 0) (0, 0)) = 1.
Proof. apply norm_eq_of_sqr; simpl; lra. Qed.

Lemma norm_far : norm (vsub (3, 0) (0, 0)) = 3.
Proof. apply norm_eq_of_sqr; simpl; lra. Qed.

(** The Mage force has length one half wherever it is evaluated. *)
Lemma norm_mage_force (r : vec) :
  norm r <> 0 -> norm (vscale (-0.5 / norm r) r) = 0.5.
Proof.
  intros Hd.
  replace (-0.5) with (- (1 / 2)) by lra.
  replace 0.5 with (1 / 2) by lra.
  apply norm_eq_of_sqr; [lra |].
  unfold vscale. simpl.
  transitivity (1 / 4 * (r.1 * r.1 + r.2 * r.2) / (norm r * norm r)).
  - field. assumption.
  - rewrite <- norm_sqr. field. assumption.
Qed.

Lemma kernel_antisym (xi xj : vec) (c : Z) :
  exists f, interaction_kernel xj xi c = Ok f /\
            interaction_kernel xi xj c = Ok (vneg f).
Proof.
  pose proof (norm_vsub_swap xi xj) as Hn.
  destruct (Rlt_dec (norm (vsub xi xj)) 1e-3) as [Hlt | Hge].
  { exists zeros. rewrite vneg_zeros. split; apply kernel_floor; lra. }
  assert (Hneg : forall k, vscale k (vsub xi xj) = vneg (vscale k (vsub xj xi))).
  { intros k. unfold vscale, vneg, vsub. simpl. f_equal; ring. }
  destruct (Z.eq_dec c 0%Z) as [-> | H0].
  { destruct (Rlt_dec (norm (vsub xi xj)) 2) as [Hlt | Hfar].
    - eexists. split; [apply kernel_guard_near; lra |].
      fold Guard. rewrite kernel_guard_near by lra.
      rewrite Hneg, Hn. reflexivity.
    - exists zeros. rewrite vneg_zeros.
      split; apply kernel_guard_far; lra. }
  destruct (Z.eq_dec c 1%Z) as [-> | H1].
  { eexists. split; [apply kernel_mage; lra |].
    fold Mage. rewrite kernel_mage by lra.
    rewrite Hneg, Hn. reflexivity. }
  exists zeros. rewrite vneg_zeros. split; now apply kernel_other.
Qed.

Lemma kernel_value_ok (xi xj : vec) (c : Z) :
  interaction_kernel xi xj c = Ok (kernel_value xi xj c).
Proof.
  unfold kernel_value. destruct (kernel_total xi xj c) as [f ->]. reflexivity.
Qed.

Lemma gradient_spec (x : R) : potential_gradient x = spec_gradient x.
Proof. unfold potential_gradient, spec_gradient. simpl. lra. Qed.

Lemma drift_spec (p : vec) : drift p = spec_drift p.
Proof.
  unfold drift, spec_drift, vneg, vmap. simpl.
  now rewrite !gradient_spec.
Qed.

(** ** Marked outcomes *)

Lemma taint_taint {A} (r : result A) : taint (taint r) = taint r.
Proof. now destruct r. Qed.

Lemma taint_not_ok {A} (r : result A) (a : A) : taint r <> Ok a.
Proof. now destruct r. Qed.


Lemma returned_ok {A} (r : result A) (a : A) :
  r = Ok a -> returned r = Some a.
Proof. now intros ->. Qed.

Lemma rbind_taint {A B} (m : result A) (k : A -> result B) :
  rbind (taint m) k = taint (rbind m k).
Proof. destruct m; simpl; [reflexivity | now rewrite taint_taint | reflexivity]. Qed.

Lemma rbind_ok {A B} (m : result A) (k : A -> result B) (b : B) :
  rbind m k = Ok b -> exists a, m = Ok a /\ k a = Ok b.
Proof.
  destruct m as [a | a | e]; simpl; intros H.
  - now exists a.
  - now apply taint_not_ok in H.
  - discriminate.
Qed.




(** Closes a case in which a computation known to have ended with [Ok]
    would have raised or met a [nan]. *)
Ltac absurd_outcome :=
  match goal with
  | H : taint _ = Ok _ |- _ => now apply taint_not_ok in H
  | H : Fail _ = Ok _ |- _ => discriminate H
  | H : Nan _ = Ok _ |- _ => discriminate H
  end.

(** ** Loops *)

Lemma rfor_app {A B} (l1 l2 : list A) (b : B) (body : B -> A -> result B) :
  rfor (l1 ++ l2) b body = rbind (rfor l1 b body) (fun b' => rfor l2 b' body).
Proof.
  revert b. induction l1 as [| a l1 IH]; intros b; simpl; [reflexivity |].
  destruct (body b a); simpl; [apply IH | | reflexivity].
  now rewrite rbind_taint, IH.
Qed.


(** ** Sums of vectors *)

Lemma vadd_assoc (u v w : vec) : vadd (vadd u v) w = vadd u (vadd v w).
Proof. unfold vadd. simpl. f_equal; ring. Qed.

Lemma vadd_zeros_r (u : vec) : vadd u zeros = u.
Proof. destruct u. unfold vadd, zeros. simpl. f_equal; ring. Qed.

Lemma vadd_zeros_l (u : vec) : vadd zeros u = u.
Proof. destruct u. unfold vadd, zeros. simpl. f_equal; ring. Qed.

Lemma vsum_app (l1 l2 : list vec) : vsum (l1 ++ l2) = vadd (vsum l1) (vsum l2).
Proof.
  induction l1 as [| u l1 IH]; simpl.
  - now rewrite vadd_zeros_l.
  - fold (vsum (l1 ++ l2)) (vsum l1). now rewrite IH, vadd_assoc.
Qed.

(** ** The aggregation loop *)

Lemma index_ok {A} (a : list A) (i : nat) (x : A) :
  a !! i = Some x -> index a i = Ok x.
Proof. intros H. unfold index. now rewrite H. Qed.

Section Aggregation.
Variables (classes : list Z) (X : list vec) (i : nat) (xi : vec) (ci : Z).
Hypothesis Hxi : X !! i = Some xi.
Hypothesis Hci : classes !! i = Some ci.

Lemma accumulate_self (acc : vec) : accumulate classes X i acc i = Ok acc.
  Proof. unfold accumulate. now rewrite Nat.eqb_refl. Qed.

Lemma accumulate_peer (acc : vec) (j : nat) (xj : vec) :
    j <> i -> X !! j = Some xj ->
    accumulate classes X i acc j = Ok (vadd acc (kernel_value xi xj ci)).
  Proof.
    intros Hne Hxj. unfold accumulate.
    destruct (Nat.eqb_spec i j) as [-> | _]; [contradiction |].
    rewrite (index_ok _ _ _ Hxi), (index_ok _ _ _ Hxj), (index_ok _ _ _ Hci).
    simpl. rewrite kernel_value_ok. reflexivity.
  Qed.

  (** A stretch of indices that does not contain [i] adds the kernel of
      every position of the stretch. *)
Lemma accumulate_stretch (m s : nat) (acc : vec) :
    (s + m <= length X)%nat ->
    (i < s \/ s + m <= i)%nat ->
    rfor (seq s m) acc (accumulate classes X i) =
      Ok (vadd acc
            (vsum (map (fun xj => kernel_value xi xj ci) (take m (drop s X))))).
  Proof.
    revert s acc. induction m as [| m IH]; intros s acc Hlen Hout.
    - simpl. now rewrite vadd_zeros_r.
    - destruct (lookup_lt_is_Some_2 X s) as [xs Hxs]; [lia |].
      simpl seq. simpl rfor.
      rewrite (accumulate_peer acc s xs) by (assumption || lia).
      simpl. rewrite IH by lia.
      rewrite (drop_S _ _ _ Hxs). simpl.
      fold (vsum (map (fun xj => kernel_value xi xj ci) (take m (drop (S s) X)))).
      now rewrite vadd_assoc.
  Qed.

Lemma accumulate_all :
    rfor (seq 0 (length X)) zeros (accumulate classes X i) =
      Ok (vsum (map (fun xj => kernel_value xi xj ci) (delete i X))).
  Proof.
    assert (Hi : (i < length X)%nat) by (eapply lookup_lt_Some; eassumption).
    replace (length X) with (i + (1 + (length X - S i)))%nat by lia.
    rewrite seq_app, rfor_app.
    rewrite accumulate_stretch by lia. simpl rbind.
    rewrite accumulate_self. simpl rbind.
    rewrite accumulate_stretch by lia.
    rewrite vadd_zeros_l, drop_0, delete_take_drop, map_app, vsum_app.
    rewrite (take_ge (drop (S i) X)) by (rewrite length_drop; lia).
    reflexivity.
  Qed.
End Aggregation.

Lemma interaction_mean_field (cfg : config) (classes : list Z) (X : list vec)
    (i : nat) (xi : vec) (ci : Z) :
  length X = Z.to_nat (N cfg) ->
  X !! i = Some xi ->
  classes !! i = Some ci ->
  interaction cfg classes X i = Ok (mean_field (N cfg) xi ci (delete i X)).
Proof.
  intros Hlen Hxi Hci.
  assert (Hi : (i < length X)%nat) by (eapply lookup_lt_Some; eassumption).
  unfold interaction, range. rewrite <- Hlen.
  rewrite (accumulate_all classes X i xi ci Hxi Hci). simpl rbind.
  assert (HN : IZR (N cfg) <> 0) by (apply not_0_IZR; lia).
  rewrite vdiv_ok by assumption.
  unfold mean_field, vscale. simpl. do 2 f_equal; field; assumption.
Qed.

(** ** Invariants of a [for] loop over a range *)

Section LoopInvariant.
Context {B : Type}.
Variables (body : B -> nat -> M B) (g : generator).
  (** [P k b c]: before iteration [k] the loop variables are [b] and the
      cursor is at [c]. *)
Variable P : nat -> B -> nat -> Prop.

Lemma mfor_preserves (n : nat) : forall s b c b' c',
    (forall k b c b' c', (s <= k < s + n)%nat ->
       P k b c -> body b k g c = Ok (b', c') -> P (S k) b' c') ->
    P s b c ->
    mfor (seq s n) b body g c = Ok (b', c') ->
    P (s + n)%nat b' c'.
  Proof.
    induction n as [| n IH]; intros s b c b' c' Hbody HP Hrun.
    - simpl in Hrun. unfold ret in Hrun. injection Hrun as <- <-.
      now rewrite Nat.add_0_r.
    - simpl in Hrun. unfold bind in Hrun.
      destruct (body b s g c) as [[b1 c1] | [b1 c1] | e] eqn:Hs;
    [| absurd_outcome | absurd_outcome].
      replace (s + S n)%nat with (S s + n)%nat by lia.
      apply (IH (S s) b1 c1); [| | assumption].
      + intros k b2 c2 b3 c3 Hk. apply Hbody. lia.
      + apply (Hbody s b c); [lia | assumption | assumption].
  Qed.

Lemma mfor_succeeds (n : nat) : forall s b c,
    (forall k b c, (s <= k < s + n)%nat -> P k b c ->
       exists b' c', body b k g c = Ok (b', c') /\ P (S k) b' c') ->
    P s b c ->
    exists b' c',
      mfor (seq s n) b body g c = Ok (b', c') /\ P (s + n)%nat b' c'.
  Proof.
    induction n as [| n IH]; intros s b c Hbody HP.
    - exists b, c. simpl. rewrite Nat.add_0_r. now split.
    - destruct (Hbody s b c) as (b1 & c1 & Hs & HP1); [lia | assumption |].
      destruct (IH (S s) b1 c1) as (b' & c' & Hrun & HP'); [| assumption |].
      + intros k b2 c2 Hk. apply Hbody. lia.
      + exists b', c'. simpl. unfold bind. rewrite Hs.
        replace (s + S n)%nat with (S s + n)%nat by lia. now split.
  Qed.
End LoopInvariant.

(** ** One agent, one step *)

Lemma np_sqrt_ok (x : R) : 0 <= x -> np_sqrt x = Ok (sqrt x).
Proof.
  intros Hx. unfold np_sqrt. destruct (Rlt_dec x 0); [lra | reflexivity].
Qed.

Lemma update_euler_maruyama (cfg : config) (classes : list Z) (X : list vec)
    (i : nat) (xi : vec) (ci : Z) (g : generator) (c : nat) :
  length X = Z.to_nat (N cfg) ->
  0 <= dt cfg ->
  X !! i = Some xi ->
  classes !! i = Some ci ->
  update cfg classes X i g (c + 2 * i)%nat =
    Ok (euler_maruyama cfg g c X i xi ci, (c + 2 * S i)%nat).
Proof.
  intros Hlen Hdt Hxi Hci. unfold update, bind, lift, randn2, bind, ret.
  rewrite (index_ok _ _ _ Hxi).
  rewrite (interaction_mean_field cfg classes X i xi ci Hlen Hxi Hci).
  unfold draw_normal. rewrite (np_sqrt_ok _ Hdt).
  f_equal. f_equal; [| lia].
  unfold euler_maruyama, noise_of. rewrite <- drift_spec.
  replace (S (c + 2 * i)) with (c + 2 * i + 1)%nat by lia.
  unfold vadd, vtimes, vscale. simpl. f_equal; ring.
Qed.

(** Whatever the outcome of [update], a step never changes the number of
    rows. *)
Lemma step_length (cfg : config) (classes : list Z) (X X' : list vec) g c c' :
  step cfg classes X g c = Ok (X', c') -> length X' = length X.
Proof.
  intros Hrun. unfold step, range in Hrun.
  apply (mfor_preserves _ g (fun _ X_new _ => length X_new = length X))
    in Hrun; [assumption | | apply length_replicate].
  intros k b c1 b' c1' _ Hb Hbody. unfold bind, lift in Hbody.
  destruct (update cfg classes X k g c1) as [[v c2] | [v c2] | e];
    [| absurd_outcome | absurd_outcome].
  unfold assign in Hbody.
  destruct (decide (k < length b)%nat); [| discriminate].
  injection Hbody as <- _. now rewrite length_insert.
Qed.

Section Step.
Variables (cfg : config) (classes : list Z) (X : list vec).
Variables (g : generator) (c : nat).
Hypothesis HX : length X = Z.to_nat (N cfg).
Hypothesis Hclasses : length classes = Z.to_nat (N cfg).
Hypothesis Hdt : 0 <= dt cfg.

Lemma step_rows :
    exists X_new,
      step cfg classes X g c = Ok (X_new, (c + 2 * length X)%nat) /\
      length X_new = length X /\
      forall i xi ci, X !! i = Some xi -> classes !! i = Some ci ->
        X_new !! i = Some (euler_maruyama cfg g c X i xi ci).
  Proof.
    destruct (mfor_succeeds
                (fun X_new i =>
                   bind (update cfg classes X i)
                        (fun v => lift (assign X_new i v)))
                g (rows_written cfg classes X g c) (length X) 0 (replicate (length X) zeros) c)
      as (X_new & c' & Hrun & Hc & Hlen & Hrows).
    - intros k b cur Hk (-> & Hb & Hrows).
      destruct (lookup_lt_is_Some_2 X k) as [xk Hxk]; [lia |].
      destruct (lookup_lt_is_Some_2 classes k) as [ck Hck]; [lia |].
      exists (<[k := euler_maruyama cfg g c X k xk ck]> b), (c + 2 * S k)%nat.
      split.
      + unfold bind, lift.
        rewrite (update_euler_maruyama cfg classes X k xk ck g c HX Hdt Hxk Hck).
        unfold assign. destruct (decide (k < length b)%nat); [reflexivity | lia].
      + split; [reflexivity |]. split; [now rewrite length_insert |].
        intros i xi ci Hi Hxi Hci.
        destruct (decide (i = k)) as [-> | Hne].
        * rewrite list_lookup_insert_eq by lia.
          replace xi with xk by congruence. replace ci with ck by congruence.
          reflexivity.
        * rewrite list_lookup_insert_ne by congruence.
          apply Hrows; [lia | assumption | assumption].
    - split; [lia |]. split; [apply length_replicate |]. intros i xi ci Hi. lia.
    - exists X_new. unfold step, range. rewrite <- HX.
      simpl in Hc. subst c'. split; [exact Hrun |].
      split; [assumption |].
      intros i xi ci Hxi Hci. apply Hrows; [| assumption | assumption].
      simpl. eapply lookup_lt_Some. eassumption.
  Qed.
End Step.

(** ** Filling an array from the generator *)


Lemma fill_sound {A} (n : Z) (m : M A) g c l c' :
  fill n m g c = Ok (l, c') -> (0 <= n)%Z /\ length l = Z.to_nat n.
Proof.
  unfold fill. destruct (Z.ltb_spec n 0) as [Hn | Hn]; [discriminate |].
  intros Hrun. split; [assumption |]. unfold range in Hrun.
  apply (mfor_preserves _ g (fun k rows _ => length rows = k)) in Hrun;
    [assumption | | reflexivity].
  intros k b c1 b' c1' _ Hb Hbody. unfold bind, ret in Hbody.
  destruct (m g c1) as [[a c2] | [a c2] | e];
    [| absurd_outcome | absurd_outcome].
  injection Hbody as <- _. rewrite length_app. simpl. lia.
Qed.

Lemma fill_succeeds {A} (n : Z) (m : M A) g c :
  (0 <= n)%Z ->
  (forall c, exists a c', m g c = Ok (a, c')) ->
  exists l c', fill n m g c = Ok (l, c').
Proof.
  intros Hn Hm. unfold fill, range.
  destruct (Z.ltb_spec n 0) as [Hneg | _]; [lia |].
  destruct (mfor_succeeds
              (fun rows (_ : nat) => bind m (fun a => ret (rows ++ [a])))
              g (fun _ _ _ => True) (Z.to_nat n) 0 [] c)
    as (l & c' & Hrun & _); [| exact I | now exists l, c'].
  intros k b c1 _ _. destruct (Hm c1) as (a & c2 & Ha).
  exists (b ++ [a]), c2. unfold bind, ret. rewrite Ha. now split.
Qed.

Lemma randn2_ok g c :
  randn2 g c = Ok ((normal g c, normal g (S c)), S (S c)).
Proof. reflexivity. Qed.

(** ** The loop over the time steps *)

Lemma default_last_cons {A} (x y : A) (l : list A) :
  default x (last (y :: l)) = default y (last l).
Proof. rewrite last_cons. now destruct (last l). Qed.

Lemma chronological_snoc cfg classes g X c h c1 X' c2 :
  chronological cfg classes g X c h c1 ->
  step cfg classes (default X (last h)) g c1 = Ok (X', c2) ->
  chronological cfg classes g X c (h ++ [X']) c2.
Proof.
  induction 1 as [X c | X c X1 c1 h c2' Hstep Hrest IH]; intros Hnext.
  - simpl in *. eapply chrono_step; [eassumption | constructor].
  - simpl. eapply chrono_step; [eassumption |].
    apply IH. now rewrite default_last_cons in Hnext.
Qed.

Lemma simulate_body_preserves cfg classes g X0 c0 k st c st' c' :
  steps_taken cfg classes g X0 c0 k st c ->
  bind (step cfg classes st.1)
       (fun X_new => ret (X_new, st.2 ++ [X_new])) g c = Ok (st', c') ->
  steps_taken cfg classes g X0 c0 (S k) st' c'.
Proof.
  intros (Hlen & Hall & Hchrono & Hlast & Hrows) Hbody.
  unfold bind, ret in Hbody.
  destruct (step cfg classes st.1 g c) as [[X_new c1] | [X_new c1] | e] eqn:Hstep;
    [| absurd_outcome | absurd_outcome].
  injection Hbody as <- <-. simpl.
  pose proof (step_length _ _ _ _ _ _ _ Hstep) as Hnew.
  repeat split; simpl.
  - rewrite length_app. simpl. lia.
  - apply Forall_app. split; [assumption |].
    constructor; [congruence | constructor].
  - eapply chronological_snoc; [eassumption |]. now rewrite <- Hlast.
  - now rewrite last_snoc.
  - congruence.
Qed.

Lemma steps_taken_init cfg classes g X0 c0 :
  steps_taken cfg classes g X0 c0 0 (X0, []) c0.
Proof. repeat split; simpl; constructor. Qed.

Lemma simulate_sound cfg classes X g c st c' :
  simulate cfg classes X g c = Ok (st, c') ->
  steps_taken cfg classes g X c (Z.to_nat (T cfg)) st c'.
Proof.
  intros Hrun. unfold simulate, range in Hrun.
  apply (mfor_preserves _ g (steps_taken cfg classes g X c)) in Hrun;
    [assumption | | apply steps_taken_init].
  intros k b c1 b' c1' _. apply simulate_body_preserves.
Qed.

Lemma simulate_succeeds cfg classes X g c :
  length X = Z.to_nat (N cfg) ->
  length classes = Z.to_nat (N cfg) ->
  0 <= dt cfg ->
  exists st c', simulate cfg classes X g c = Ok (st, c').
Proof.
  intros HX Hclasses Hdt. unfold simulate, range.
  destruct (mfor_succeeds
              (fun (st : list vec * list (list vec)) (_ : nat) =>
                 bind (step cfg classes st.1)
                      (fun X_new => ret (X_new, st.2 ++ [X_new])))
              g (steps_taken cfg classes g X c) (Z.to_nat (T cfg)) 0 (X, []) c)
    as (st & c' & Hrun & _); [| apply steps_taken_init | now exists st, c'].
  intros k b c1 _ Hst.
  assert (Hb : length b.1 = Z.to_nat (N cfg))
    by (destruct Hst as (_ & _ & _ & _ & ->); assumption).
  destruct (step_rows cfg classes b.1 g c1 Hb Hclasses Hdt)
    as (X_new & Hstep & _).
  eexists (X_new, b.2 ++ [X_new]), _.
  assert (Hbody : bind (step cfg classes b.1)
                    (fun X_new => ret (X_new, b.2 ++ [X_new])) g c1 =
                  Ok ((X_new, b.2 ++ [X_new]), (c1 + 2 * length b.1)%nat))
    by (unfold bind, ret; now rewrite Hstep).
  split; [exact Hbody |].
  eapply simulate_body_preserves; eassumption.
Qed.

(** ** The whole run *)


Lemma run_sound cfg g c h c' :
  run cfg g c = Ok (h, c') ->
  exists rows c1 classes c0,
    randn_rows (N cfg) g c = Ok (rows, c1) /\
    randint3 (N cfg) g c1 = Ok (classes, c0) /\
    length rows = Z.to_nat (N cfg) /\
    length classes = Z.to_nat (N cfg) /\
    steps_taken cfg classes g (map (fun x => vtimes x 5) rows) c0
      (Z.to_nat (T cfg)) (default (map (fun x => vtimes x 5) rows) (last h), h)
      c'.
Proof.
  intros Hrun. unfold run, bind, ret in Hrun.
  destruct (randn_rows (N cfg) g c) as [[rows c1] | [rows c1] | e] eqn:Hrows;
    [| absurd_outcome | absurd_outcome].
  destruct (randint3 (N cfg) g c1) as [[classes c0] | [classes c0] | e] eqn:Hcls;
    [| absurd_outcome | absurd_outcome].
  destruct (simulate cfg classes _ g c0) as [[[Xf h'] c2] | [[Xf h'] c2] | e] eqn:Hsim;
    [| absurd_outcome | absurd_outcome].
  injection Hrun as <- <-.
  exists rows, c1, classes, c0.
  apply fill_sound in Hrows as Hr. apply fill_sound in Hcls as Hc.
  apply simulate_sound in Hsim as Hst.
  destruct Hst as (? & ? & ? & Hlast & ?). simpl in *. subst Xf.
  repeat split; simpl; tauto.
Qed.

Lemma run_succeeds cfg g c :
  (0 <= N cfg)%Z -> 0 <= dt cfg -> exists h c', run cfg g c = Ok (h, c').
Proof.
  intros HN Hdt.
  destruct (fill_succeeds (N cfg) randn2 g c HN) as (rows & c1 & Hrows).
  { intros c2. eexists _, _. apply randn2_ok. }
  destruct (fill_succeeds (N cfg) draw_integer g c1 HN) as (classes & c0 & Hcls).
  { intros c2. eexists _, _. reflexivity. }
  destruct (simulate_succeeds cfg classes (map (fun x => vtimes x 5) rows) g c0)
    as ([Xf h] & c' & Hsim); [| | assumption |].
  - rewrite length_map. apply (fill_sound _ _ _ _ _ _ Hrows).
  - apply (fill_sound _ _ _ _ _ _ Hcls).
  - exists h, c'. unfold run, bind, ret.
    fold (randn_rows (N cfg)) in Hrows. fold (randint3 (N cfg)) in Hcls.
    now rewrite Hrows, Hcls, Hsim.
Qed.

(** ** Runs that meet a [nan] go on *)











(** ** The draws a computation depends on *)
















(** ** A run with one agent and one step *)

Lemma solo_update (s x : R) :
  euler_maruyama (solo s) (constant_tape x) 3%nat [(x * 5, x * 5)] 0%nat
    (x * 5, x * 5) 2%Z =
  (solo_coordinate s x, solo_coordinate s x).
Proof.
  unfold euler_maruyama, noise_of, mean_field, spec_drift, spec_gradient,
    solo_coordinate, vadd, vscale, vsum, zeros. simpl.
  rewrite sqrt_1. f_equal; field.
Qed.

Lemma solo_step (s x : R) :
  step (solo s) [2%Z] [(x * 5, x * 5)] (constant_tape x) 3%nat =
    Ok ([(solo_coordinate s x, solo_coordinate s x)], 5%nat).
Proof.
  destruct (step_rows (solo s) [2%Z] [(x * 5, x * 5)] (constant_tape x) 3%nat)
    as (X_new & Hstep & Hlen & Hrows); [reflexivity | reflexivity | simpl; lra |].
  specialize (Hrows 0%nat (x * 5, x * 5) 2%Z eq_refl eq_refl).
  rewrite solo_update in Hrows.
  destruct X_new as [| v [| w X_new]]; try discriminate.
  injection Hrows as ->. exact Hstep.
Qed.

Lemma solo_run (s x : R) :
  run (solo s) (constant_tape x) 0%nat =
    Ok ([[(solo_coordinate s x, solo_coordinate s x)]], 5%nat).
Proof.
  unfold run, bind.
  change (randn_rows (N (solo s)) (constant_tape x) 0%nat)
    with (@Ok (list vec * nat) ([(x, x)], 2%nat)).
  cbv beta iota.
  change (randint3 (N (solo s)) (constant_tape x) 2%nat)
    with (@Ok (list Z * nat) ([2%Z], 3%nat)).
  cbv beta iota.
  unfold simulate, range.
  change (seq 0 (Z.to_nat (T (solo s)))) with [0%nat].
  unfold mfor, bind, ret.
  change (map (fun v => vtimes v 5) [(x, x)]) with [(x * 5, x * 5)].
  change ((([(x * 5, x * 5)], @nil (list vec)).1)) with [(x * 5, x * 5)].
  rewrite solo_step. reflexivity.
Qed.

Lemma solo_coordinate_at_0 (s : R) : solo_coordinate s 0 = 0.
Proof. unfold solo_coordinate. lra. Qed.

Lemma solo_coordinate_at_1 : solo_coordinate 1 1 = -2.
Proof. unfold solo_coordinate. lra. Qed.

(** * The claims *)

(** C2. Below the floor [1e-3] the kernel returns the zero vector for every
    class code, in particular for two equal positions; the check comes
    first, so no division is ever evaluated with a zero divisor and the
    kernel returns a real vector on every input. *)
Theorem kernel_zero_below_floor (xi xj : vec) (c : Z) :
  (norm (vsub xi xj) < 1e-3 -> interaction_kernel xi xj c = Ok zeros) /\
  interaction_kernel xi xi c = Ok zeros /\
  (exists f, interaction_kernel xi xj c = Ok f).
Proof.
  split; [apply kernel_floor |].
  split; [| apply kernel_total].
  apply kernel_floor. rewrite norm_zero_vsub. lra.
Qed.

Lemma kernel_zero_below_floor_witness :
  norm (vsub (1, 1) (1, 1)) < 1e-3 /\
  interaction_kernel (1, 1) (1, 1) Mage = Ok zeros.
Proof.
  assert (H : norm (vsub (1, 1) (1, 1)) < 1e-3)
    by (rewrite norm_zero_vsub; lra).
  split; [exact H |].
  exact (proj1 (kernel_zero_below_floor (1, 1) (1, 1) Mage) H).
Defined.

(** C3. For a Guard the kernel returns [2 r / dist^3] when
    [1e-3 <= dist < 2] and the zero vector when [dist >= 2], where
    [r = xi - xj] and [dist] is the norm of [r]. *)
Theorem kernel_guard_law (xi xj : vec) :
  (1e-3 <= norm (vsub xi xj) < 2 ->
   interaction_kernel xi xj Guard =
     Ok (vscale (2 / norm (vsub xi xj) ^ 3) (vsub xi xj))) /\
  (2 <= norm (vsub xi xj) -> interaction_kernel xi xj Guard = Ok zeros).
Proof.
  split; [| apply kernel_guard_far].
  intros H. rewrite kernel_guard_near by assumption.
  do 2 f_equal. lra.
Qed.

Lemma kernel_guard_law_witness :
  (1e-3 <= norm (vsub (1, 0) (0, 0)) < 2 /\
   interaction_kernel (1, 0) (0, 0) Guard =
     Ok (vscale (2 / norm (vsub (1, 0) (0, 0)) ^ 3) (vsub (1, 0) (0, 0)))) /\
  (2 <= norm (vsub (3, 0) (0, 0)) /\
   interaction_kernel (3, 0) (0, 0) Guard = Ok zeros).
Proof.
  assert (H1 : 1e-3 <= norm (vsub (1, 0) (0, 0)) < 2)
    by (rewrite norm_apart; lra).
  assert (H3 : 2 <= norm (vsub (3, 0) (0, 0)))
    by (rewrite norm_far; lra).
  split; (split; [assumption |]).
  - exact (proj1 (kernel_guard_law (1, 0) (0, 0)) H1).
  - exact (proj2 (kernel_guard_law (3, 0) (0, 0)) H3).
Defined.

(** C4. For a Mage and [dist > 1e-3] the kernel returns [-0.5 r / dist], a
    vector of Euclidean norm one half whatever the distance. *)
Theorem kernel_mage_law (xi xj : vec) :
  1e-3 < norm (vsub xi xj) ->
  exists f,
    interaction_kernel xi xj Mage = Ok f /\
    f = vscale (- (1 / 2) / norm (vsub xi xj)) (vsub xi xj) /\
    norm f = 1 / 2.
Proof.
  intros H.
  exists (vscale (-0.5 / norm (vsub xi xj)) (vsub xi xj)).
  split; [apply kernel_mage; lra |].
  split; [do 2 f_equal; lra |].
  rewrite norm_mage_force by lra. lra.
Qed.

Lemma kernel_mage_law_witness :
  1e-3 < norm (vsub (3, 0) (0, 0)) /\
  exists f,
    interaction_kernel (3, 0) (0, 0) Mage = Ok f /\
    f = vscale (- (1 / 2) / norm (vsub (3, 0) (0, 0))) (vsub (3, 0) (0, 0)) /\
    norm f = 1 / 2.
Proof.
  assert (H : 1e-3 < norm (vsub (3, 0) (0, 0))) by (rewrite norm_far; lra).
  split; [exact H |].
  exact (kernel_mage_law (3, 0) (0, 0) H).
Defined.

(** C5. The potential gradient is [0.1 (x^3 - 9 x)] and the drift of an
    agent is the negated gradient of each of its two coordinates. *)
Theorem potential_drift_law (x : R) (p : vec) :
  potential_gradient x = spec_gradient x /\
  drift p = spec_drift p /\
  drift p = (- (1 / 10 * (p.1 ^ 3 - 9 * p.1)), - (1 / 10 * (p.2 ^ 3 - 9 * p.2))).
Proof.
  split; [apply gradient_spec |].
  split; [apply drift_spec |].
  unfold drift, vneg, vmap, potential_gradient. simpl. f_equal; lra.
Qed.

(** C10. Swapping the two positions negates the kernel, for every class
    code. *)
Theorem kernel_antisymmetric (xi xj : vec) (c : Z) :
  exists f,
    interaction_kernel xj xi c = Ok f /\
    interaction_kernel xi xj c = Ok (vneg f).
Proof. apply kernel_antisym. Qed.

(** C6. The interaction of agent [i] is the sum of the kernel over the
    positions of the other agents, divided by [N]: the row [i] itself is
    left out, the remaining [N - 1] terms are divided by [N], and with
    [N = 1] the interaction is the zero vector. *)
Theorem interaction_is_mean_field (cfg : config) (classes : list Z)
    (X : list vec) (i : nat) (xi : vec) (ci : Z) :
  length X = Z.to_nat (N cfg) ->
  X !! i = Some xi ->
  classes !! i = Some ci ->
  interaction cfg classes X i = Ok (mean_field (N cfg) xi ci (delete i X)) /\
  Z.of_nat (length (delete i X)) = (N cfg - 1)%Z /\
  (N cfg = 1%Z -> interaction cfg classes X i = Ok zeros).
Proof.
  intros Hlen Hxi Hci.
  assert (Hi : (i < length X)%nat) by (eapply lookup_lt_Some; eassumption).
  pose proof (interaction_mean_field cfg classes X i xi ci Hlen Hxi Hci) as Hmf.
  split; [exact Hmf |]. split.
  - rewrite length_delete by eauto. lia.
  - intros H1. rewrite Hmf, H1. rewrite H1 in Hlen.
    destruct X as [| x [| y X]]; try discriminate.
    destruct i as [| i]; [| simpl in Hi; lia].
    unfold mean_field, vscale, zeros. simpl. do 2 f_equal; lra.
Qed.

Lemma interaction_is_mean_field_witness :
  interaction duo guards apart 0%nat =
    Ok (mean_field (N duo) (1, 0) Guard (delete 0%nat apart)) /\
  Z.of_nat (length (delete 0%nat apart)) = (N duo - 1)%Z /\
  (N duo = 1%Z -> interaction duo guards apart 0%nat = Ok zeros).
Proof.
  exact (interaction_is_mean_field duo guards apart 0%nat (1, 0) Guard
           eq_refl eq_refl eq_refl).
Defined.

(** C7. A time step is synchronous: for populations of [N] rows it returns
    a new snapshot whose row [i] is
    [x_i + (drift_i + interaction_i) dt + noise_i], every term read from the
    snapshot the step started from; the rows written earlier in the step
    are not read. *)
Theorem step_is_synchronous (cfg : config) (classes : list Z) (X : list vec)
    (g : generator) (c : nat) :
  length X = Z.to_nat (N cfg) ->
  length classes = Z.to_nat (N cfg) ->
  0 <= dt cfg ->
  exists X_new,
    step cfg classes X g c = Ok (X_new, (c + 2 * length X)%nat) /\
    length X_new = length X /\
    forall i xi ci, X !! i = Some xi -> classes !! i = Some ci ->
      X_new !! i = Some (euler_maruyama cfg g c X i xi ci).
Proof. apply step_rows. Qed.

Lemma step_is_synchronous_witness :
  exists X_new,
    step duo guards apart (constant_tape 1) 0%nat =
      Ok (X_new, (0 + 2 * length apart)%nat) /\
    length X_new = length apart /\
    forall i xi ci, apart !! i = Some xi -> guards !! i = Some ci ->
      X_new !! i = Some (euler_maruyama duo (constant_tape 1) 0%nat apart i xi ci).
Proof.
  apply (step_is_synchronous duo guards apart (constant_tape 1) 0%nat);
    [reflexivity | reflexivity | simpl; lra].
Defined.

(** C8. A run from a population of non-negative size with [dt >= 0]
    completes, and a completed run has recorded [T] snapshots in the order
    of the steps: the first is the outcome of a step from the initial
    population, each later one the outcome of a step from the one before.
    Every snapshot has [N] rows, each a pair of reals. *)
Theorem history_shape (cfg : config) (g : generator) (c : nat) :
  ((0 <= N cfg)%Z -> 0 <= dt cfg -> exists h c', run cfg g c = Ok (h, c')) /\
  forall h c', run cfg g c = Ok (h, c') ->
    length h = Z.to_nat (T cfg) /\
    ((0 <= T cfg)%Z -> Z.of_nat (length h) = T cfg) /\
    Forall (fun s : list vec => Z.of_nat (length s) = N cfg) h /\
    exists rows c1 classes c0,
      randn_rows (N cfg) g c = Ok (rows, c1) /\
      randint3 (N cfg) g c1 = Ok (classes, c0) /\
      chronological cfg classes g (map (fun x => vtimes x 5) rows) c0 h c'.
Proof.
  split; [apply run_succeeds |].
  intros h c' Hrun.
  destruct (run_sound cfg g c h c' Hrun)
    as (rows & c1 & classes & c0 & Hrows & Hcls & Hr & Hc & Hst).
  destruct Hst as (Hlen & Hall & Hchrono & Hlast & Hfin). simpl in *.
  pose proof (fill_sound _ _ _ _ _ _ Hrows) as [HN _].
  split; [assumption |]. split; [lia |]. split.
  - eapply Forall_impl; [exact Hall |]. simpl. intros s Hs.
    rewrite Hs, length_map, Hr. lia.
  - now exists rows, c1, classes, c0.
Qed.

Lemma history_shape_witness :
  (exists h c', run default_config (constant_tape 0) 0%nat = Ok (h, c')) /\
  run (solo 1) (constant_tape 0) 0%nat =
    Ok ([[(solo_coordinate 1 0, solo_coordinate 1 0)]], 5%nat) /\
  length [[(solo_coordinate 1 0, solo_coordinate 1 0)]] =
    Z.to_nat (T (solo 1)).
Proof.
  split; [| split; [apply solo_run |]].
  - apply (proj1 (history_shape default_config (constant_tape 0) 0%nat));
      [simpl; lia | simpl; lra].
  - apply (proj2 (history_shape (solo 1) (constant_tape 0) 0%nat) _ _
             (solo_run 1 0)).
Defined.






(** The draws do matter: on tapes that differ, runs with the same
    configuration record different trajectories. *)
Lemma different_draws_different_trajectories :
  run (solo 1) (constant_tape 0) 0%nat = Ok ([[(0, 0)]], 5%nat) /\
  run (solo 1) (constant_tape 1) 0%nat = Ok ([[(-2, -2)]], 5%nat) /\
  run (solo 1) (constant_tape 0) 0%nat <> run (solo 1) (constant_tape 1) 0%nat.
Proof.
  assert (H0 : run (solo 1) (constant_tape 0) 0%nat = Ok ([[(0, 0)]], 5%nat))
    by (rewrite solo_run, solo_coordinate_at_0; reflexivity).
  assert (H1 : run (solo 1) (constant_tape 1) 0%nat = Ok ([[(-2, -2)]], 5%nat))
    by (rewrite solo_run, solo_coordinate_at_1; reflexivity).
  split; [exact H0 |]. split; [exact H1 |].
  rewrite H0, H1. intros [= H]. lra.
Qed.

(** * Further properties of the script *)

(** ** The kernel *)

Lemma norm_zeros : norm zeros = 0.
Proof. apply norm_eq_of_sqr; simpl; lra. Qed.

Lemma norm_vscale_pos (k : R) (u : vec) :
  0 <= k -> norm (vscale k u) = k * norm u.
Proof.
  intros Hk. apply norm_eq_of_sqr.
  - pose proof (norm_nonneg u). nra.
  - unfold vscale. simpl.
    transitivity (k * k * (u.1 * u.1 + u.2 * u.2)); [ring |].
    rewrite <- norm_sqr. ring.
Qed.

Lemma vsub_shift (xi xj t : vec) : vsub (vadd xi t) (vadd xj t) = vsub xi xj.
Proof. unfold vsub, vadd. simpl. f_equal; ring. Qed.

Lemma dot_self (u : vec) : dot u u = norm u * norm u.
Proof. unfold dot. now rewrite norm_sqr. Qed.

Lemma guard_force_norm (xi xj : vec) :
  1e-3 <= norm (vsub xi xj) < 2 ->
  exists f,
    interaction_kernel xi xj Guard = Ok f /\
    norm f = 2 / (norm (vsub xi xj) * norm (vsub xi xj)) /\
    1 / 2 < norm f <= 2000000.
Proof.
  intros [Hlo Hhi].
  exists (vscale (2 / norm (vsub xi xj) ^ 3) (vsub xi xj)).
  split.
  { rewrite kernel_guard_near by lra. do 2 f_equal. lra. }
  set (d := norm (vsub xi xj)) in *.
  assert (Hd : 0 < d) by lra.
  assert (Hk : 0 <= 2 / d ^ 3).
  { apply Rlt_le, Rdiv_lt_0_compat; [lra | apply pow_lt; assumption]. }
  assert (Hn : norm (vscale (2 / d ^ 3) (vsub xi xj)) = 2 / (d * d)).
  { rewrite norm_vscale_pos by assumption. fold d. field. lra. }
  split; [exact Hn |]. rewrite Hn.
  assert (Hdd : 0 < d * d) by nra.
  split.
  - apply (Rmult_lt_reg_r (d * d)); [assumption |].
    replace (2 / (d * d) * (d * d)) with 2 by (field; lra). nra.
  - apply (Rmult_le_reg_r (d * d)); [assumption |].
    replace (2 / (d * d) * (d * d)) with 2 by (field; lra). nra.
Qed.

Lemma kernel_norm_le (xi xj : vec) (c : Z) :
  exists f, interaction_kernel xi xj c = Ok f /\ norm f <= 2000000.
Proof.
  destruct (Rlt_dec (norm (vsub xi xj)) 1e-3) as [Hlt | Hge].
  { exists zeros. split; [now apply kernel_floor | rewrite norm_zeros; lra]. }
  destruct (Z.eq_dec c 0%Z) as [-> | H0].
  { destruct (Rlt_dec (norm (vsub xi xj)) 2) as [Hlt | Hfar].
    - destruct (guard_force_norm xi xj) as (f & Hf & _ & _ & Hn); [lra |].
      exists f. split; [exact Hf | exact Hn].
    - exists zeros. split; [apply kernel_guard_far; lra |].
      rewrite norm_zeros; lra. }
  destruct (Z.eq_dec c 1%Z) as [-> | H1].
  { eexists. split; [apply kernel_mage; lra |].
    rewrite norm_mage_force by lra. lra. }
  exists zeros. split; [now apply kernel_other | rewrite norm_zeros; lra].
Qed.

(** X1. The kernel depends on the two positions only through their
    difference: moving both by the same vector changes nothing. *)
Theorem kernel_translation_invariant (xi xj t : vec) (c : Z) :
  interaction_kernel (vadd xi t) (vadd xj t) c = interaction_kernel xi xj c.
Proof. unfold interaction_kernel. now rewrite vsub_shift. Qed.

(** X2. In its range a Guard pushes with a force of size [2 / dist^2]: at
    least one half, at most two million, and growing as the agents come
    closer. *)
Theorem guard_force_magnitude (xi xj : vec) :
  1e-3 <= norm (vsub xi xj) < 2 ->
  exists f,
    interaction_kernel xi xj Guard = Ok f /\
    norm f = 2 / (norm (vsub xi xj) * norm (vsub xi xj)) /\
    1 / 2 < norm f <= 2000000.
Proof. apply guard_force_norm. Qed.

Lemma guard_force_magnitude_witness :
  1e-3 <= norm (vsub (1, 0) (0, 0)) < 2 /\
  exists f,
    interaction_kernel (1, 0) (0, 0) Guard = Ok f /\
    norm f = 2 / (norm (vsub (1, 0) (0, 0)) * norm (vsub (1, 0) (0, 0))) /\
    1 / 2 < norm f <= 2000000.
Proof.
  assert (H : 1e-3 <= norm (vsub (1, 0) (0, 0)) < 2)
    by (rewrite norm_apart; lra).
  split; [exact H |].
  exact (guard_force_magnitude (1, 0) (0, 0) H).
Defined.

(** X3. Whatever the positions and the class code, the force of one pair
    is a real vector of norm at most two million: the floor at [1e-3]
    bounds the Guard's singularity. *)
Theorem kernel_bounded (xi xj : vec) (c : Z) :
  exists f, interaction_kernel xi xj c = Ok f /\ norm f <= 2000000.
Proof. apply kernel_norm_le. Qed.

Lemma dot_vscale_l (k : R) (u v : vec) : dot (vscale k u) v = k * dot u v.
Proof. unfold dot, vscale. simpl. ring. Qed.

(** X4. Above the floor a Mage is pulled towards the other agent and a
    Guard in range is pushed away from it: the force of the Mage has a
    negative scalar product with [xi - xj], that of the Guard a positive
    one. *)
Theorem mage_attracts_guard_repels (xi xj : vec) :
  1e-3 <= norm (vsub xi xj) ->
  (exists f,
     interaction_kernel xi xj Mage = Ok f /\
     dot f (vsub xi xj) = - norm (vsub xi xj) / 2 /\
     dot f (vsub xi xj) < 0) /\
  (norm (vsub xi xj) < 2 ->
   exists f,
     interaction_kernel xi xj Guard = Ok f /\
     dot f (vsub xi xj) = 2 / norm (vsub xi xj) /\
     0 < dot f (vsub xi xj)).
Proof.
  intros Hlo. set (d := norm (vsub xi xj)) in *.
  assert (Hd : 0 < d) by lra.
  split.
  - exists (vscale (- (1 / 2) / d) (vsub xi xj)).
    split.
    { rewrite kernel_mage by (fold d; lra). fold d. do 2 f_equal. lra. }
    assert (Hdot : dot (vscale (- (1 / 2) / d) (vsub xi xj)) (vsub xi xj)
                   = - d / 2).
    { rewrite dot_vscale_l, dot_self. fold d. field. lra. }
    split; [exact Hdot | rewrite Hdot; lra].
  - intros Hhi. exists (vscale (2 / d ^ 3) (vsub xi xj)).
    split.
    { rewrite kernel_guard_near by (fold d; lra). fold d. do 2 f_equal. lra. }
    assert (Hdot : dot (vscale (2 / d ^ 3) (vsub xi xj)) (vsub xi xj) = 2 / d).
    { rewrite dot_vscale_l, dot_self. fold d. field. lra. }
    split; [exact Hdot |]. rewrite Hdot.
    apply Rdiv_lt_0_compat; lra.
Qed.

Lemma mage_attracts_guard_repels_witness :
  1e-3 <= norm (vsub (1, 0) (0, 0)) /\
  (exists f,
     interaction_kernel (1, 0) (0, 0) Mage = Ok f /\
     dot f (vsub (1, 0) (0, 0)) = - norm (vsub (1, 0) (0, 0)) / 2 /\
     dot f (vsub (1, 0) (0, 0)) < 0) /\
  (exists f,
     interaction_kernel (1, 0) (0, 0) Guard = Ok f /\
     dot f (vsub (1, 0) (0, 0)) = 2 / norm (vsub (1, 0) (0, 0)) /\
     0 < dot f (vsub (1, 0) (0, 0))).
Proof.
  assert (H : 1e-3 <= norm (vsub (1, 0) (0, 0))) by (rewrite norm_apart; lra).
  assert (H2 : norm (vsub (1, 0) (0, 0)) < 2) by (rewrite norm_apart; lra).
  split; [exact H |]. split.
  - exact (proj1 (mage_attracts_guard_repels (1, 0) (0, 0) H)).
  - exact (proj2 (mage_attracts_guard_repels (1, 0) (0, 0) H) H2).
Defined.

(** ** The potential *)

Lemma gradient_factored (x : R) :
  potential_gradient x = 1 / 10 * (x * (x - 3) * (x + 3)).
Proof. unfold potential_gradient. simpl. lra. Qed.

Lemma gradient_at_rest (x : R) : at_rest x -> potential_gradient x = 0.
Proof.
  intros [-> | [-> | ->]]; rewrite gradient_factored; lra.
Qed.

(** X5. The gradient vanishes at the two wells [-3] and [3] and at the
    barrier [0] between them, and nowhere else. *)
Theorem gradient_zero_iff (x : R) : potential_gradient x = 0 <-> at_rest x.
Proof.
  split; [| apply gradient_at_rest].
  rewrite gradient_factored. intros H. unfold at_rest.
  assert (H' : x * (x - 3) * (x + 3) = 0) by lra.
  apply Rmult_integral in H' as [H' | H']; [| lra].
  apply Rmult_integral in H' as [H' | H']; lra.
Qed.

(** X6. The gradient is an odd function; it is negative between the
    barrier and the right well and positive beyond the well, so the drift
    [-gradient] moves a coordinate towards the well on its side. *)
Theorem gradient_restoring (x : R) :
  potential_gradient (- x) = - potential_gradient x /\
  (0 < x < 3 -> potential_gradient x < 0) /\
  (3 < x -> 0 < potential_gradient x).
Proof.
  rewrite !gradient_factored. split; [lra |]. split.
  - intros [H0 H3]. assert (0 < x * (3 - x)) by nra. nra.
  - intros H3. assert (0 < x * (x - 3)) by nra. nra.
Qed.

Lemma gradient_restoring_witness :
  (0 < 1 < 3 /\ potential_gradient 1 < 0) /\
  (3 < 4 /\ 0 < potential_gradient 4).
Proof.
  assert (H1 : 0 < 1 < 3) by lra.
  assert (H4 : 3 < 4) by lra.
  split; (split; [assumption |]).
  - exact (proj1 (proj2 (gradient_restoring 1)) H1).
  - exact (proj2 (proj2 (gradient_restoring 4)) H4).
Defined.

Lemma gradient_zero_iff_witness : at_rest 3 /\ potential_gradient 3 = 0.
Proof.
  assert (H : at_rest 3) by (right; right; reflexivity).
  split; [exact H |].
  exact (proj2 (gradient_zero_iff 3) H).
Defined.

(** ** The interaction of an agent with the population *)

Lemma kernel_value_of (xi xj f : vec) (c : Z) :
  interaction_kernel xi xj c = Ok f -> kernel_value xi xj c = f.
Proof. intros H. unfold kernel_value. now rewrite H. Qed.

Lemma vscale_zeros (k : R) : vscale k zeros = zeros.
Proof. unfold vscale, zeros. simpl. f_equal; ring. Qed.

Lemma vsum_all_zeros (l : list vec) :
  Forall (fun f => f = zeros) l -> vsum l = zeros.
Proof.
  induction 1 as [| f l -> _ IH]; simpl; [reflexivity |].
  fold (vsum l). now rewrite IH, vadd_zeros_l.
Qed.

Lemma mean_field_zero (n : Z) (xi : vec) (c : Z) (others : list vec) :
  Forall (fun xj => kernel_value xi xj c = zeros) others ->
  mean_field n xi c others = zeros.
Proof.
  intros H. unfold mean_field.
  rewrite vsum_all_zeros; [apply vscale_zeros |].
  now apply Forall_fmap.
Qed.

Lemma interaction_zero_of (cfg : config) (classes : list Z) (X : list vec)
    (i : nat) (xi : vec) (ci : Z) :
  length X = Z.to_nat (N cfg) ->
  X !! i = Some xi ->
  classes !! i = Some ci ->
  Forall (fun xj => kernel_value xi xj ci = zeros) (delete i X) ->
  interaction cfg classes X i = Ok zeros.
Proof.
  intros Hlen Hxi Hci Hzero.
  rewrite (interaction_mean_field cfg classes X i xi ci Hlen Hxi Hci).
  now rewrite mean_field_zero.
Qed.

Lemma inert_interaction (cfg : config) (classes : list Z) (X : list vec)
    (i : nat) (xi : vec) (ci : Z) :
  length X = Z.to_nat (N cfg) ->
  X !! i = Some xi ->
  classes !! i = Some ci ->
  inert ci ->
  interaction cfg classes X i = Ok zeros.
Proof.
  intros Hlen Hxi Hci [H0 H1].
  apply (interaction_zero_of cfg classes X i xi ci Hlen Hxi Hci).
  apply Forall_forall. intros xj _.
  apply kernel_value_of. now apply kernel_other.
Qed.

(** X7. An agent whose class code is neither 0 nor 1 (a Ninja) feels no
    interaction, whatever the positions of the others. *)
Theorem inert_agent_no_interaction (cfg : config) (classes : list Z)
    (X : list vec) (i : nat) (xi : vec) (ci : Z) :
  length X = Z.to_nat (N cfg) ->
  X !! i = Some xi ->
  classes !! i = Some ci ->
  inert ci ->
  interaction cfg classes X i = Ok zeros.
Proof. apply inert_interaction. Qed.

Lemma inert_agent_no_interaction_witness :
  inert Ninja /\ interaction trio ninjas resting 1%nat = Ok zeros.
Proof.
  assert (H : inert Ninja) by (split; discriminate).
  split; [exact H |].
  exact (inert_agent_no_interaction trio ninjas resting 1%nat (0, 3) Ninja
           eq_refl eq_refl eq_refl H).
Defined.

(** X8. An agent feels no interaction when every other agent is closer
    than [1e-3] to it, whatever its class; a Guard feels none either when
    the others that are not that close are at distance 2 or more. *)
Theorem out_of_reach_no_interaction (cfg : config) (classes : list Z)
    (X : list vec) (i : nat) (xi : vec) (ci : Z) :
  length X = Z.to_nat (N cfg) ->
  X !! i = Some xi ->
  classes !! i = Some ci ->
  Forall (fun xj => norm (vsub xi xj) < 1e-3 \/
                    (ci = Guard /\ 2 <= norm (vsub xi xj))) (delete i X) ->
  interaction cfg classes X i = Ok zeros.
Proof.
  intros Hlen Hxi Hci Hfar.
  apply (interaction_zero_of cfg classes X i xi ci Hlen Hxi Hci).
  eapply Forall_impl; [exact Hfar |]. simpl.
  intros xj [Hnear | [-> Hge]]; apply kernel_value_of.
  - now apply kernel_floor.
  - now apply kernel_guard_far.
Qed.

Lemma out_of_reach_no_interaction_witness :
  Forall (fun xj => norm (vsub (3, 0) xj) < 1e-3 \/
                    (Guard = Guard /\ 2 <= norm (vsub (3, 0) xj)))
         (delete 0%nat [(3, 0); (0, 0)]) /\
  interaction duo guards [(3, 0); (0, 0)] 0%nat = Ok zeros.
Proof.
  assert (H : Forall (fun xj => norm (vsub (3, 0) xj) < 1e-3 \/
                                (Guard = Guard /\ 2 <= norm (vsub (3, 0) xj)))
                     (delete 0%nat [(3, 0); (0, 0)])).
  { constructor; [| constructor]. right. split; [reflexivity |].
    rewrite norm_far. lra. }
  split; [exact H |].
  exact (out_of_reach_no_interaction duo guards [(3, 0); (0, 0)] 0%nat
           (3, 0) Guard eq_refl eq_refl eq_refl H).
Defined.

(** *** Bounds *)

Lemma cauchy_schwarz (u v : vec) : dot u v <= norm u * norm v.
Proof.
  pose proof (norm_nonneg u) as Hu. pose proof (norm_nonneg v) as Hv.
  pose proof (norm_sqr u) as Hu2. pose proof (norm_sqr v) as Hv2.
  destruct (Rle_dec (dot u v) 0) as [Hneg | Hpos]; [nra |].
  assert (Hsq : dot u v * dot u v <= (norm u * norm v) * (norm u * norm v)).
  { replace (norm u * norm v * (norm u * norm v))
      with ((norm u * norm u) * (norm v * norm v)) by ring.
    rewrite Hu2, Hv2. unfold dot.
    assert (0 <= (u.1 * v.2 - u.2 * v.1) * (u.1 * v.2 - u.2 * v.1))
      by apply Rle_0_sqr.
    nra. }
  assert (Hq : 0 <= norm u * norm v) by nra.
  set (p := dot u v) in *. set (q := norm u * norm v) in *.
  apply Rnot_lt_le. intros Hlt.
  assert (q * q < p * p) by (apply Rmult_le_0_lt_compat; lra).
  lra.
Qed.

Lemma norm_triangle (u v : vec) : norm (vadd u v) <= norm u + norm v.
Proof.
  pose proof (norm_nonneg u) as Hu. pose proof (norm_nonneg v) as Hv.
  pose proof (norm_nonneg (vadd u v)) as Hs.
  pose proof (norm_sqr u) as Hu2. pose proof (norm_sqr v) as Hv2.
  pose proof (norm_sqr (vadd u v)) as Hs2.
  pose proof (cauchy_schwarz u v) as Hcs.
  unfold dot in Hcs.
  change ((vadd u v).1) with (u.1 + v.1) in Hs2.
  change ((vadd u v).2) with (u.2 + v.2) in Hs2.
  assert (Hsq : norm (vadd u v) * norm (vadd u v)
                <= (norm u + norm v) * (norm u + norm v)).
  { rewrite Hs2.
    replace ((u.1 + v.1) * (u.1 + v.1) + (u.2 + v.2) * (u.2 + v.2))
      with ((u.1 * u.1 + u.2 * u.2) + (v.1 * v.1 + v.2 * v.2)
            + 2 * (u.1 * v.1 + u.2 * v.2)) by ring.
    rewrite <- Hu2, <- Hv2. lra. }
  set (s := norm (vadd u v)) in *. set (t := norm u + norm v) in *.
  assert (Ht : 0 <= t) by (unfold t; lra).
  apply Rnot_lt_le. intros Hlt.
  assert (t * t < s * s) by (apply Rmult_le_0_lt_compat; lra).
  lra.
Qed.

Lemma norm_vsum_le (B : R) (l : list vec) :
  Forall (fun f => norm f <= B) l -> norm (vsum l) <= INR (length l) * B.
Proof.
  induction 1 as [| f l Hf _ IH].
  - simpl. rewrite norm_zeros. lra.
  - change (vsum (f :: l)) with (vadd f (vsum l)).
    pose proof (norm_triangle f (vsum l)).
    rewrite length_cons, S_INR. lra.
Qed.

Lemma mage_force_le (xi xj : vec) : norm (kernel_value xi xj Mage) <= 1 / 2.
Proof.
  destruct (Rlt_dec (norm (vsub xi xj)) 1e-3) as [Hlt | Hge].
  - rewrite (kernel_value_of _ _ zeros) by now apply kernel_floor.
    rewrite norm_zeros. lra.
  - rewrite (kernel_value_of _ _ _ _ (kernel_mage xi xj ltac:(lra))).
    rewrite norm_mage_force by lra. lra.
Qed.

Lemma any_force_le (xi xj : vec) (c : Z) :
  norm (kernel_value xi xj c) <= 2000000.
Proof.
  destruct (kernel_norm_le xi xj c) as (f & Hf & Hn).
  now rewrite (kernel_value_of _ _ _ _ Hf).
Qed.

Lemma mean_field_le (n : Z) (xi : vec) (c : Z) (others : list vec) (B : R) :
  (0 < n)%Z ->
  Forall (fun xj => norm (kernel_value xi xj c) <= B) others ->
  norm (mean_field n xi c others) <= INR (length others) * B / IZR n.
Proof.
  intros Hn Hall. unfold mean_field.
  assert (HN : 0 < IZR n) by now apply IZR_lt.
  assert (Hk : 0 <= 1 / IZR n).
  { apply Rlt_le, Rdiv_lt_0_compat; lra. }
  rewrite norm_vscale_pos by assumption.
  assert (Hsum : norm (vsum (map (fun xj => kernel_value xi xj c) others))
                 <= INR (length others) * B).
  { rewrite <- (length_map (fun xj => kernel_value xi xj c)).
    apply norm_vsum_le. now apply Forall_fmap. }
  unfold Rdiv. rewrite Rmult_1_l, (Rmult_comm (/ IZR n)).
  apply Rmult_le_compat_r; [| assumption].
  apply Rlt_le, Rinv_0_lt_compat. assumption.
Qed.

Lemma others_count (cfg : config) (X : list vec) (i : nat) (xi : vec) :
  length X = Z.to_nat (N cfg) ->
  X !! i = Some xi ->
  (0 < N cfg)%Z /\ INR (length (delete i X)) = IZR (N cfg) - 1.
Proof.
  intros Hlen Hxi.
  assert (Hi : (i < length X)%nat) by (eapply lookup_lt_Some; eassumption).
  split; [lia |].
  rewrite length_delete by eauto. rewrite INR_IZR_INZ.
  replace (Z.of_nat (length X - 1)) with (N cfg - 1)%Z by lia.
  now rewrite minus_IZR.
Qed.

(** X9. The interaction of an agent is a real vector of norm at most
    [2000000 (N - 1) / N]; for a Mage the norm is at most
    [(N - 1) / (2 N)], so below one half however large the population. *)
Theorem interaction_bounded (cfg : config) (classes : list Z) (X : list vec)
    (i : nat) (xi : vec) (ci : Z) :
  length X = Z.to_nat (N cfg) ->
  X !! i = Some xi ->
  classes !! i = Some ci ->
  exists f,
    interaction cfg classes X i = Ok f /\
    norm f <= (IZR (N cfg) - 1) * 2000000 / IZR (N cfg) /\
    (ci = Mage ->
     norm f <= (IZR (N cfg) - 1) * (1 / 2) / IZR (N cfg) /\ norm f < 1 / 2).
Proof.
  intros Hlen Hxi Hci.
  destruct (others_count cfg X i xi Hlen Hxi) as [HN Hcount].
  exists (mean_field (N cfg) xi ci (delete i X)).
  split; [now apply interaction_mean_field |]. split.
  - rewrite <- Hcount. apply mean_field_le; [assumption |].
    apply Forall_forall. intros xj _. apply any_force_le.
  - intros ->.
    assert (Hle : norm (mean_field (N cfg) xi Mage (delete i X))
                  <= (IZR (N cfg) - 1) * (1 / 2) / IZR (N cfg)).
    { rewrite <- Hcount. apply mean_field_le; [assumption |].
      apply Forall_forall. intros xj _. apply mage_force_le. }
    split; [exact Hle |].
    assert (HR : 0 < IZR (N cfg)) by now apply IZR_lt.
    eapply Rle_lt_trans; [exact Hle |].
    apply (Rmult_lt_reg_r (IZR (N cfg))); [assumption |].
    replace ((IZR (N cfg) - 1) * (1 / 2) / IZR (N cfg) * IZR (N cfg))
      with ((IZR (N cfg) - 1) * (1 / 2)) by (field; lra).
    lra.
Qed.

Lemma interaction_bounded_witness :
  exists f,
    interaction duo mages apart 0%nat = Ok f /\
    norm f <= (IZR (N duo) - 1) * 2000000 / IZR (N duo) /\
    (Mage = Mage ->
     norm f <= (IZR (N duo) - 1) * (1 / 2) / IZR (N duo) /\ norm f < 1 / 2).
Proof.
  exact (interaction_bounded duo mages apart 0%nat (1, 0) Mage
           eq_refl eq_refl eq_refl).
Defined.

(** *** Forces between agents of one class *)

Lemma kernel_value_antisym (xi xj : vec) (c : Z) :
  kernel_value xi xj c = vneg (kernel_value xj xi c).
Proof.
  destruct (kernel_antisym xi xj c) as (f & Hji & Hij).
  now rewrite (kernel_value_of _ _ _ _ Hji), (kernel_value_of _ _ _ _ Hij).
Qed.

Lemma vadd_comm (u v : vec) : vadd u v = vadd v u.
Proof. unfold vadd. f_equal; ring. Qed.

Lemma vsum_opposite {A} (a b : A -> vec) (l : list A) :
  (forall x, a x = vneg (b x)) ->
  vadd (vsum (map a l)) (vsum (map b l)) = zeros.
Proof.
  intros Hab. induction l as [| x l IH]; simpl.
  - apply vadd_zeros_l.
  - fold (vsum (map a l)) (vsum (map b l)).
    transitivity (vadd (vadd (a x) (b x))
                       (vadd (vsum (map a l)) (vsum (map b l)))).
    + unfold vadd. simpl. f_equal; ring.
    + rewrite IH, Hab. unfold vadd, vneg, zeros. simpl. f_equal; ring.
Qed.

Lemma vsum_imap_vadd {A} (a : A -> vec) (l : list A) :
  forall g : nat -> A -> vec,
  vsum (imap (fun i x => vadd (a x) (g i x)) l) =
  vadd (vsum (map a l)) (vsum (imap g l)).
Proof.
  induction l as [| x l IH]; intros g.
  - simpl. now rewrite vadd_zeros_l.
  - rewrite !imap_cons. simpl.
    change (vsum (imap ((fun i x => vadd (a x) (g i x)) ∘ S) l))
      with (vsum (imap (fun i x => vadd (a x) ((g ∘ S) i x)) l)).
    rewrite IH.
    fold (vsum (map a l)) (vsum (imap (g ∘ S) l)).
    unfold vadd. simpl. f_equal; ring.
Qed.

Lemma vsum_imap_vscale {A} (k : R) (l : list A) :
  forall g : nat -> A -> vec,
  vsum (imap (fun i x => vscale k (g i x)) l) = vscale k (vsum (imap g l)).
Proof.
  induction l as [| x l IH]; intros g.
  - simpl. now rewrite vscale_zeros.
  - rewrite !imap_cons. simpl.
    change (vsum (imap ((fun i x => vscale k (g i x)) ∘ S) l))
      with (vsum (imap (fun i x => vscale k ((g ∘ S) i x)) l)).
    rewrite IH. fold (vsum (imap (g ∘ S) l)).
    unfold vadd, vscale. simpl. f_equal; ring.
Qed.

(** The forces of all ordered pairs of distinct agents add up to zero. *)
Lemma pair_forces_cancel (c : Z) (X : list vec) :
  vsum (imap (fun i xi =>
                vsum (map (fun xj => kernel_value xi xj c) (delete i X))) X)
  = zeros.
Proof.
  induction X as [| x X IH]; [reflexivity |].
  rewrite imap_cons.
  change (vsum (?f :: ?l)) with (vadd f (vsum l)).
  change (delete 0%nat (x :: X)) with X.
  change (vsum (imap (?F ∘ S) X))
    with (vsum (imap (fun i xi =>
                        vadd (kernel_value xi x c)
                             (vsum (map (fun xj => kernel_value xi xj c)
                                        (delete i X)))) X)).
  rewrite (vsum_imap_vadd (fun xi => kernel_value xi x c)), IH, vadd_zeros_r.
  apply vsum_opposite. intros xj. apply kernel_value_antisym.
Qed.

Lemma mean_fields_cancel (n : Z) (c : Z) (X : list vec) :
  vsum (imap (fun i xi => mean_field n xi c (delete i X)) X) = zeros.
Proof.
  unfold mean_field.
  rewrite (vsum_imap_vscale (1 / IZR n) X
             (fun i xi =>
                vsum (map (fun xj => kernel_value xi xj c) (delete i X)))).
  now rewrite pair_forces_cancel, vscale_zeros.
Qed.

(** X10. In a population whose agents all have the same class the
    interactions cancel: collected in a list, the interactions of the [N]
    agents add up to the zero vector. *)
Theorem equal_classes_forces_cancel (cfg : config) (classes : list Z)
    (X : list vec) (c : Z) :
  length X = Z.to_nat (N cfg) ->
  length classes = length X ->
  Forall (fun ci => ci = c) classes ->
  exists F,
    length F = length X /\
    (forall i, (i < length X)%nat ->
       exists f, F !! i = Some f /\ interaction cfg classes X i = Ok f) /\
    vsum F = zeros.
Proof.
  intros Hlen Hclasses Hsame.
  exists (imap (fun i xi => mean_field (N cfg) xi c (delete i X)) X).
  split; [apply length_imap |]. split; [| apply mean_fields_cancel].
  intros i Hi.
  destruct (lookup_lt_is_Some_2 X i Hi) as [xi Hxi].
  destruct (lookup_lt_is_Some_2 classes i) as [ci Hci]; [lia |].
  assert (ci = c) as ->.
  { rewrite Forall_forall in Hsame. apply Hsame.
    eapply list_elem_of_lookup_2. eassumption. }
  exists (mean_field (N cfg) xi c (delete i X)). split.
  - rewrite list_lookup_imap, Hxi. reflexivity.
  - now apply interaction_mean_field.
Qed.

Lemma equal_classes_forces_cancel_witness :
  Forall (fun ci => ci = Guard) guards /\
  exists F,
    length F = length apart /\
    (forall i, (i < length apart)%nat ->
       exists f, F !! i = Some f /\ interaction duo guards apart i = Ok f) /\
    vsum F = zeros.
Proof.
  assert (H : Forall (fun ci => ci = Guard) guards)
    by (repeat constructor).
  split; [exact H |].
  exact (equal_classes_forces_cancel duo guards apart Guard
           eq_refl eq_refl H).
Defined.

(** ** Steps without noise *)

Lemma noise_off (cfg : config) (g : generator) (c i : nat) :
  sigma cfg = 0 -> noise_of cfg g c i = zeros.
Proof.
  intros Hs. unfold noise_of, vscale, zeros. rewrite Hs. simpl. f_equal; ring.
Qed.

(** Two snapshots with the rows of [step] are equal. *)
Lemma rows_determine (X X1 X2 : list vec) (classes : list Z)
    (row1 row2 : nat -> vec -> Z -> vec) :
  length classes = length X ->
  length X1 = length X ->
  length X2 = length X ->
  (forall i xi ci, X !! i = Some xi -> classes !! i = Some ci ->
     X1 !! i = Some (row1 i xi ci)) ->
  (forall i xi ci, X !! i = Some xi -> classes !! i = Some ci ->
     X2 !! i = Some (row2 i xi ci)) ->
  (forall i xi ci, X !! i = Some xi -> classes !! i = Some ci ->
     row1 i xi ci = row2 i xi ci) ->
  X1 = X2.
Proof.
  intros Hc H1 H2 Hr1 Hr2 Heq. apply list_eq. intros i.
  destruct (decide (i < length X)%nat) as [Hi | Hi].
  - destruct (lookup_lt_is_Some_2 X i Hi) as [xi Hxi].
    destruct (lookup_lt_is_Some_2 classes i) as [ci Hci]; [lia |].
    rewrite (Hr1 i xi ci Hxi Hci), (Hr2 i xi ci Hxi Hci).
    f_equal. now apply Heq.
  - rewrite !lookup_ge_None_2 by lia. reflexivity.
Qed.

Lemma step_without_noise (cfg : config) (classes : list Z) (X : list vec)
    (g1 g2 : generator) (c : nat) :
  sigma cfg = 0 ->
  length X = Z.to_nat (N cfg) ->
  length classes = Z.to_nat (N cfg) ->
  0 <= dt cfg ->
  step cfg classes X g1 c = step cfg classes X g2 c.
Proof.
  intros Hs HX Hcls Hdt.
  destruct (step_rows cfg classes X g1 c HX Hcls Hdt) as (X1 & -> & H1 & Hr1).
  destruct (step_rows cfg classes X g2 c HX Hcls Hdt) as (X2 & -> & H2 & Hr2).
  do 2 f_equal.
  apply (rows_determine X X1 X2 classes
           (fun i xi ci => euler_maruyama cfg g1 c X i xi ci)
           (fun i xi ci => euler_maruyama cfg g2 c X i xi ci));
    try assumption; [congruence |].
  intros i xi ci _ _. unfold euler_maruyama. now rewrite !noise_off.
Qed.

Lemma step_drift_only (cfg : config) (classes : list Z) (X : list vec)
    (g : generator) (c : nat) :
  sigma cfg = 0 ->
  Forall inert classes ->
  length X = Z.to_nat (N cfg) ->
  length classes = Z.to_nat (N cfg) ->
  0 <= dt cfg ->
  step cfg classes X g c =
    Ok (map (drift_only (dt cfg)) X, (c + 2 * length X)%nat).
Proof.
  intros Hs Hinert HX Hcls Hdt.
  destruct (step_rows cfg classes X g c HX Hcls Hdt) as (X1 & -> & H1 & Hr1).
  do 2 f_equal.
  apply (rows_determine X X1 (map (drift_only (dt cfg)) X) classes
           (fun i xi ci => euler_maruyama cfg g c X i xi ci)
           (fun _ xi _ => drift_only (dt cfg) xi));
    try assumption; [congruence | now rewrite length_map | |].
  - intros i xi ci Hxi _. now rewrite list_lookup_fmap, Hxi.
  - intros i xi ci Hxi Hci. unfold euler_maruyama, drift_only.
    rewrite noise_off by assumption.
    rewrite mean_field_zero.
    + now rewrite !vadd_zeros_r.
    + rewrite Forall_forall in Hinert.
      destruct (Hinert ci) as [H0 H1']; [eapply list_elem_of_lookup_2; eassumption |].
      apply Forall_forall. intros xj _.
      apply kernel_value_of. now apply kernel_other.
Qed.

Lemma drift_only_at_rest (h : R) (xi : vec) :
  at_rest xi.1 -> at_rest xi.2 -> drift_only h xi = xi.
Proof.
  intros H1 H2. destruct xi as [x y]. simpl in *.
  unfold drift_only, spec_drift, vadd, vscale. simpl.
  rewrite <- !gradient_spec, !gradient_at_rest by assumption.
  f_equal; ring.
Qed.

Lemma map_drift_only_at_rest (h : R) (X : list vec) :
  Forall (fun xi => at_rest xi.1 /\ at_rest xi.2) X ->
  map (drift_only h) X = X.
Proof.
  induction 1 as [| xi X [H1 H2] _ IH]; simpl; [reflexivity |].
  now rewrite drift_only_at_rest, IH.
Qed.

(** X11. With [sigma = 0] a step does not depend on the values the
    generator yields: on any two tapes it returns the same snapshot, and
    on both it moves the cursor by the [2 N] draws it still makes. *)
Theorem noise_free_step_ignores_draws (cfg : config) (classes : list Z)
    (X : list vec) (g1 g2 : generator) (c : nat) :
  sigma cfg = 0 ->
  length X = Z.to_nat (N cfg) ->
  length classes = Z.to_nat (N cfg) ->
  0 <= dt cfg ->
  exists X_new,
    step cfg classes X g1 c = Ok (X_new, (c + 2 * length X)%nat) /\
    step cfg classes X g2 c = Ok (X_new, (c + 2 * length X)%nat) /\
    length X_new = length X.
Proof.
  intros Hs HX Hcls Hdt.
  destruct (step_rows cfg classes X g1 c HX Hcls Hdt) as (X1 & H1 & Hlen & _).
  exists X1. split; [exact H1 |]. split; [| exact Hlen].
  rewrite <- H1. symmetry. now apply step_without_noise.
Qed.

Lemma noise_free_step_ignores_draws_witness :
  exists X_new,
    step duo guards apart (constant_tape 0) 0%nat =
      Ok (X_new, (0 + 2 * length apart)%nat) /\
    step duo guards apart (constant_tape 1) 0%nat =
      Ok (X_new, (0 + 2 * length apart)%nat) /\
    length X_new = length apart.
Proof.
  apply (noise_free_step_ignores_draws duo guards apart
           (constant_tape 0) (constant_tape 1) 0%nat);
    [reflexivity | reflexivity | reflexivity | simpl; lra].
Defined.

(** X12. With [sigma = 0] and only agents whose class code is neither 0
    nor 1, a step moves every agent by the drift alone: the new snapshot is
    [x - gradient(x) dt], coordinate by coordinate. *)
Theorem inert_noise_free_step_is_drift (cfg : config) (classes : list Z)
    (X : list vec) (g : generator) (c : nat) :
  sigma cfg = 0 ->
  Forall inert classes ->
  length X = Z.to_nat (N cfg) ->
  length classes = Z.to_nat (N cfg) ->
  0 <= dt cfg ->
  step cfg classes X g c =
    Ok (map (fun xi =>
               (xi.1 - potential_gradient xi.1 * dt cfg,
                xi.2 - potential_gradient xi.2 * dt cfg)) X,
        (c + 2 * length X)%nat).
Proof.
  intros Hs Hinert HX Hcls Hdt.
  rewrite step_drift_only by assumption.
  do 2 f_equal. apply map_ext. intros [x y].
  unfold drift_only, spec_drift, vadd, vscale. simpl.
  rewrite <- !gradient_spec. f_equal; ring.
Qed.

Lemma ninjas_inert : Forall inert ninjas.
Proof. repeat constructor; discriminate. Qed.

Lemma inert_noise_free_step_is_drift_witness :
  step trio ninjas resting (constant_tape 1) 0%nat =
    Ok (map (fun xi =>
               (xi.1 - potential_gradient xi.1 * dt trio,
                xi.2 - potential_gradient xi.2 * dt trio)) resting,
        (0 + 2 * length resting)%nat).
Proof.
  apply (inert_noise_free_step_is_drift trio ninjas resting
           (constant_tape 1) 0%nat);
    [reflexivity | exact ninjas_inert | reflexivity | reflexivity
    | simpl; lra].
Defined.

(** ** Whole runs *)

(** Filling an array makes one call a row, in the order of the rows. *)
Lemma fill_rows {A} (n : Z) (m : M A) (per_row : nat) (row : nat -> A) g c :
  (0 <= n)%Z ->
  (forall i, m g (c + per_row * i)%nat =
             Ok (row i, (c + per_row * S i)%nat)) ->
  fill n m g c =
    Ok (map row (seq 0 (Z.to_nat n)), (c + per_row * Z.to_nat n)%nat).
Proof.
  intros Hn Hm. unfold fill, range.
  destruct (Z.ltb_spec n 0) as [Hneg | _]; [lia |].
  destruct (mfor_succeeds
              (fun rows (_ : nat) => bind m (fun a => ret (rows ++ [a])))
              g (fun k rows cur =>
                   rows = map row (seq 0 k) /\ cur = (c + per_row * k)%nat)
              (Z.to_nat n) 0 [] c)
    as (l & c' & Hrun & -> & ->).
  - intros k b cur _ [-> ->].
    exists (map row (seq 0 k) ++ [row k]), (c + per_row * S k)%nat.
    unfold bind, ret. rewrite Hm. split; [reflexivity |].
    split; [| reflexivity]. rewrite seq_S, map_app. reflexivity.
  - split; [reflexivity | lia].
  - exact Hrun.
Qed.

Lemma randn_rows_layout (n : Z) g c :
  (0 <= n)%Z ->
  randn_rows n g c =
    Ok (map (fun i => (normal g (c + 2 * i), normal g (c + 2 * i + 1)))
            (seq 0 (Z.to_nat n)),
        (c + 2 * Z.to_nat n)%nat).
Proof.
  intros Hn. unfold randn_rows. apply fill_rows; [assumption |].
  intros i. rewrite randn2_ok. do 3 f_equal; try f_equal; lia.
Qed.

Lemma randint3_layout (n : Z) g c :
  (0 <= n)%Z ->
  randint3 n g c =
    Ok (map (fun i => integer g (c + i)) (seq 0 (Z.to_nat n)),
        (c + 1 * Z.to_nat n)%nat).
Proof.
  intros Hn. unfold randint3. apply fill_rows; [assumption |].
  intros i. unfold draw_integer. do 3 f_equal; lia.
Qed.

(** A snapshot that a step returns unchanged is recorded at every step. *)
Lemma simulate_constant (cfg : config) (classes : list Z) (X : list vec)
    (per_step : nat) g c :
  (forall c, step cfg classes X g c = Ok (X, (c + per_step)%nat)) ->
  simulate cfg classes X g c =
    Ok ((X, replicate (Z.to_nat (T cfg)) X),
        (c + Z.to_nat (T cfg) * per_step)%nat).
Proof.
  intros Hstep. unfold simulate, range.
  destruct (mfor_succeeds
              (fun (st : list vec * list (list vec)) (_ : nat) =>
                 bind (step cfg classes st.1)
                      (fun X_new => ret (X_new, st.2 ++ [X_new])))
              g (fun k st cur =>
                   st = (X, replicate k X) /\ cur = (c + k * per_step)%nat)
              (Z.to_nat (T cfg)) 0 (X, []) c)
    as (st & c' & Hrun & -> & ->).
  - intros k b cur _ [-> ->].
    exists (X, replicate (S k) X), (c + S k * per_step)%nat.
    unfold bind, ret. simpl fst. simpl snd. rewrite Hstep.
    rewrite replicate_S_end. split; [do 2 f_equal; lia | split; reflexivity].
  - split; [reflexivity | lia].
  - exact Hrun.
Qed.

Lemma simulate_no_steps (cfg : config) (classes : list Z) (X : list vec) g c :
  (T cfg <= 0)%Z -> simulate cfg classes X g c = Ok ((X, []), c).
Proof.
  intros HT. unfold simulate, range.
  replace (Z.to_nat (T cfg)) with 0%nat by lia. reflexivity.
Qed.

Lemma run_empty (cfg : config) g c :
  N cfg = 0%Z -> run cfg g c = Ok (replicate (Z.to_nat (T cfg)) [], c).
Proof.
  intros HN. unfold run, bind, ret.
  rewrite randn_rows_layout, randint3_layout by lia.
  rewrite HN. simpl map.
  rewrite (simulate_constant cfg [] [] 0).
  - simpl. do 2 f_equal. lia.
  - intros c1. unfold step, range. rewrite HN. simpl.
    unfold ret. do 2 f_equal. lia.
Qed.

Lemma run_no_steps (cfg : config) g c :
  (0 <= N cfg)%Z -> (T cfg <= 0)%Z ->
  run cfg g c = Ok ([], (c + 3 * Z.to_nat (N cfg))%nat).
Proof.
  intros HN HT. unfold run, bind, ret.
  rewrite randn_rows_layout, randint3_layout by lia.
  rewrite simulate_no_steps by assumption. simpl. do 2 f_equal. lia.
Qed.

Lemma simulate_at_rest (cfg : config) (classes : list Z) (X : list vec) g c :
  sigma cfg = 0 ->
  Forall inert classes ->
  length X = Z.to_nat (N cfg) ->
  length classes = Z.to_nat (N cfg) ->
  0 <= dt cfg ->
  Forall (fun xi => at_rest xi.1 /\ at_rest xi.2) X ->
  simulate cfg classes X g c =
    Ok ((X, replicate (Z.to_nat (T cfg)) X),
        (c + Z.to_nat (T cfg) * (2 * length X))%nat).
Proof.
  intros Hs Hinert HX Hcls Hdt Hrest.
  apply simulate_constant. intros c1.
  rewrite step_drift_only by assumption.
  now rewrite map_drift_only_at_rest.
Qed.

(** X13. The wells are equilibria: without noise, a population of agents
    that feel no interaction and whose coordinates all lie in
    [{-3, 0, 3}] never moves; every recorded snapshot is the population
    itself. *)
Theorem resting_population_stays (cfg : config) (classes : list Z)
    (X : list vec) (g : generator) (c : nat) :
  sigma cfg = 0 ->
  Forall inert classes ->
  length X = Z.to_nat (N cfg) ->
  length classes = Z.to_nat (N cfg) ->
  0 <= dt cfg ->
  Forall (fun xi => at_rest xi.1 /\ at_rest xi.2) X ->
  simulate cfg classes X g c =
    Ok ((X, replicate (Z.to_nat (T cfg)) X),
        (c + Z.to_nat (T cfg) * (2 * length X))%nat).
Proof. apply simulate_at_rest. Qed.

Lemma resting_at_rest :
  Forall (fun xi : vec => at_rest xi.1 /\ at_rest xi.2) resting.
Proof.
  unfold resting, at_rest. repeat constructor; simpl; lra.
Qed.

Lemma resting_population_stays_witness :
  simulate trio ninjas resting (constant_tape 1) 0%nat =
    Ok ((resting, replicate (Z.to_nat (T trio)) resting),
        (0 + Z.to_nat (T trio) * (2 * length resting))%nat).
Proof.
  apply (resting_population_stays trio ninjas resting (constant_tape 1) 0%nat);
    [reflexivity | exact ninjas_inert | reflexivity | reflexivity
    | simpl; lra | exact resting_at_rest].
Defined.

(** X14. An empty population is accepted whatever [dt] and [sigma] are:
    with [N = 0] the run makes no draw and records [max(T, 0)] empty
    snapshots. *)
Theorem empty_population_run (cfg : config) (g : generator) (c : nat) :
  N cfg = 0%Z -> run cfg g c = Ok (replicate (Z.to_nat (T cfg)) [], c).
Proof. apply run_empty. Qed.

Lemma empty_population_run_witness :
  N nobody = 0%Z /\
  run nobody (constant_tape 1) 0%nat = Ok ([[]; []], 0%nat).
Proof.
  split; [reflexivity |].
  exact (empty_population_run nobody (constant_tape 1) 0%nat eq_refl).
Defined.

(** X15. With [T <= 0] and [N >= 0] the loop body never runs: the run
    returns an empty history after the [3 N] draws of the initial
    population, whatever [dt] and [sigma] are. *)
Theorem no_steps_run (cfg : config) (g : generator) (c : nat) :
  (0 <= N cfg)%Z -> (T cfg <= 0)%Z ->
  run cfg g c = Ok ([], (c + 3 * Z.to_nat (N cfg))%nat).
Proof. apply run_no_steps. Qed.

Lemma no_steps_run_witness :
  run no_steps (constant_tape 1) 0%nat = Ok ([], 6%nat).
Proof.
  apply (no_steps_run no_steps (constant_tape 1) 0%nat); simpl; lia.
Defined.

(** *** The draws of a run *)








(** *** One step more *)




